(** * Tool fallbacks with tiny circuit breakers

    A shallow embedding of [patterns/tool-fallbacks/examples/py/main.py]:
    the rolling-window statistics ([p95], failure rate), the
    [CircuitBreaker] state machine, the timeout guard [with_timeout] and
    the two fallback chains [SupplierClient.get_price] and
    [AllergenClient.allergens_for], followed by the properties of the
    resilience-layer specification that concern them.

    Conventions of the embedding.
    - Python floats that hold milliseconds, rates and thresholds are exact
      rationals ([Q]).  The two float expressions whose rounding could
      matter, [fails / len >= max_fail_rate] and [int(0.95 * (len - 1))],
      agree with their exact counterparts for every window the breaker can
      hold (the product [0.95 * n] rounds to the integer [95 n / 100]
      whenever that quotient is an integer, and is at distance at least
      [0.05] from an integer otherwise).
    - The clocks, the protected third-party calls and the outcome of every
      race against a deadline are supplied by the [World]: an oracle that is
      read in order, one reading per call.
    - [emit] appends to a log instead of printing.
    - Strings are byte strings; [lower] and [strip] act on ASCII. *)

From stdpp Require Import gmap strings list.
From Stdlib Require Import Ascii QArith Qround DecimalString Sorted Permutation.
From Stdlib Require Import Lqa.

Close Scope Q_scope.

(** ** Types and utilities *)

Inductive Region := us_east | us_west.

Definition region_str (r : Region) : string :=
  match r with us_east => "us-east" | us_west => "us-west" end.

Inductive BreakerState := closed | open | probe.

Definition state_eqb (a b : BreakerState) : bool :=
  match a, b with
  | closed, closed | open, open | probe, probe => true
  | _, _ => false
  end.

Record PriceResult := {
  cents : Z;
  is_degraded : bool;
  reasons : list string;
  freshness : option string
}.

Module AllergenResult.
Record t := {
  items : list string;
  is_degraded : bool;
  reasons : list string
}.
End AllergenResult.

Record Recipe := {
  id : string;
  name : string;
  ingredients : list string;
  allergen_tags : list string
}.

(** Python exceptions, by the classes the code distinguishes:
    [Exception] (and its subclasses other than the next), the builtin
    [TimeoutError], and a [BaseException] that is not an [Exception]
    (cancellation, keyboard interrupt). *)
Inductive exn :=
| Exception (msg : string)
| TimeoutError (msg : string)
| BaseException (msg : string).

Definition exn_str (e : exn) : string :=
  match e with Exception m | TimeoutError m | BaseException m => m end.

Definition to_error (e : exn) : exn :=
  match e with
  | BaseException m => Exception m
  | _ => e
  end.

(** What the environment answers to a protected call: a value, an
    exception, or nothing before any deadline fires. *)
Inductive Reply (A : Type) :=
| Returned (a : A)
| Raised (e : exn)
| Hangs.
Arguments Returned {A} a.
Arguments Raised {A} e.
Arguments Hangs {A}.

(** The lines [emit] prints, one constructor per metric name. *)
Inductive Metric :=
| breaker_rolling (name : string) (size : nat) (fail_rate p95_ms : Q)
| breaker_state_change (name : string) (state : BreakerState)
| supplier_skip_open (region : Region) (sku : string)
| supplier_success (region : Region) (sku : string) (duration_ms : Q)
    (breaker_state : BreakerState)
| supplier_error (region : Region) (sku : string) (error : string)
    (breaker_state : BreakerState)
| supplier_fallback_cache (sku : string) (fresh : string)
| supplier_fallback_baseline (sku : string) (c : Z)
| allergen_error (recipeId : string) (error : string)
    (breaker_state : BreakerState).

Record CacheEntry := { entry_cents : Z; entry_ts : Q }.

(** Everything outside the program text: the two clocks with the number
    of readings taken so far, the third-party services with the calls made
    so far, the module-level [price_cache] and the metric log. *)
Record World := {
  clock_mono : nat -> Q;
  ticks_mono : nat;
  clock_wall : nat -> Q;
  ticks_wall : nat;
  supplier_api : nat -> string -> Region -> Reply Z;
  supplier_calls : list (string * Region);
  allergen_api : nat -> string -> list string -> Reply (list string);
  allergen_calls : list string;
  llm_calls : list string;
  price_cache : gmap string CacheEntry;
  metrics : list Metric
}.

(** ** Computations

    [Run] is code that cannot raise; [Sim] is a coroutine: it returns,
    raises, or is still pending ([Late]) when its deadline fires. *)

Definition Run (A : Type) : Type := World -> A * World.

Inductive outcome (A : Type) :=
| Ret (a : A)
| Raise (e : exn)
| Late.
Arguments Ret {A} a.
Arguments Raise {A} e.
Arguments Late {A}.

Definition Sim (A : Type) : Type := World -> outcome A * World.

Definition ret {A} (a : A) : Sim A := fun w => (Ret a, w).

Definition bind {A B} (m : Sim A) (k : A -> Sim B) : Sim B :=
  fun w =>
    match m w with
    | (Ret a, w') => k a w'
    | (Raise e, w') => (Raise e, w')
    | (Late, w') => (Late, w')
    end.

Definition lift {A} (r : Run A) : Sim A :=
  fun w => let '(a, w') := r w in (Ret a, w').

Definition raise {A} (e : exn) : Sim A := fun w => (Raise e, w).

(** [try: body except BaseException as e: handler e]. *)
Definition try_except {A} (body : Sim A) (handler : exn -> Sim A) : Sim A :=
  fun w =>
    match body w with
    | (Raise e, w') => handler e w'
    | r => r
    end.

Declare Scope sim_scope.
Delimit Scope sim_scope with sim.
Notation "x <- m ;; k" := (bind m (fun x => k))
  (at level 100, m at next level, right associativity) : sim_scope.
Notation "m ;;; k" := (bind m (fun _ => k))
  (at level 100, right associativity) : sim_scope.

Definition emit (m : Metric) : Run unit :=
  fun w =>
    (tt, {| clock_mono := clock_mono w; ticks_mono := ticks_mono w;
            clock_wall := clock_wall w; ticks_wall := ticks_wall w;
            supplier_api := supplier_api w; supplier_calls := supplier_calls w;
            allergen_api := allergen_api w; allergen_calls := allergen_calls w;
            llm_calls := llm_calls w;
            price_cache := price_cache w; metrics := metrics w ++ [m] |}).

Definition now_ms_monotonic : Run Q :=
  fun w =>
    (clock_mono w (ticks_mono w),
     {| clock_mono := clock_mono w; ticks_mono := S (ticks_mono w);
        clock_wall := clock_wall w; ticks_wall := ticks_wall w;
        supplier_api := supplier_api w; supplier_calls := supplier_calls w;
        allergen_api := allergen_api w; allergen_calls := allergen_calls w;
        llm_calls := llm_calls w;
        price_cache := price_cache w; metrics := metrics w |}).

Definition now_ms_wall : Run Q :=
  fun w =>
    (clock_wall w (ticks_wall w),
     {| clock_mono := clock_mono w; ticks_mono := ticks_mono w;
        clock_wall := clock_wall w; ticks_wall := S (ticks_wall w);
        supplier_api := supplier_api w; supplier_calls := supplier_calls w;
        allergen_api := allergen_api w; allergen_calls := allergen_calls w;
        llm_calls := llm_calls w;
        price_cache := price_cache w; metrics := metrics w |}).

(** ** Rolling-window statistics *)

(** [sorted(values)]: a stable ascending sort. *)
Fixpoint insert_sorted (x : Q) (l : list Q) : list Q :=
  match l with
  | [] => [x]
  | y :: t => if Qle_bool x y then x :: y :: t else y :: insert_sorted x t
  end.

Fixpoint sorted (values : list Q) : list Q :=
  match values with
  | [] => []
  | x :: t => insert_sorted x (sorted t)
  end.

(** [int(0.95 * n)] for a list length [n]. *)
Definition int_095 (n : nat) : nat := (95 * n) / 100.

Definition p95 (values : list Q) : Q :=
  match values with
  | [] => 0%Q
  | _ =>
      let sorted_vals := sorted values in
      let idx := Nat.min (length sorted_vals - 1)
                         (int_095 (length sorted_vals - 1)) in
      nth idx sorted_vals 0%Q
  end.

(** ** Circuit breaker *)

Record CircuitBreaker := {
  _state : BreakerState;
  _last_opened_at_ms : Q;
  _outcomes : list (Q * bool);
  _sample_size : Z;
  _max_fail_rate : Q;
  _cooldown_ms : Q;
  _max_p95_ms : Q;
  _name : string
}.

(** [CircuitBreaker.__init__]. *)
Definition new_breaker (sample_size : Z) (max_fail_rate : Q)
    (cooldown_ms max_p95_ms : Z) (name : string) : CircuitBreaker :=
  {| _state := closed;
     _last_opened_at_ms := 0%Q;
     _outcomes := [];
     _sample_size := sample_size;
     _max_fail_rate := max_fail_rate;
     _cooldown_ms := inject_Z cooldown_ms;
     _max_p95_ms := inject_Z max_p95_ms;
     _name := name |}.

Definition set_state (self : CircuitBreaker) (s : BreakerState) : CircuitBreaker :=
  {| _state := s;
     _last_opened_at_ms := _last_opened_at_ms self;
     _outcomes := _outcomes self;
     _sample_size := _sample_size self;
     _max_fail_rate := _max_fail_rate self;
     _cooldown_ms := _cooldown_ms self;
     _max_p95_ms := _max_p95_ms self;
     _name := _name self |}.

Definition set_last_opened (self : CircuitBreaker) (t : Q) : CircuitBreaker :=
  {| _state := _state self;
     _last_opened_at_ms := t;
     _outcomes := _outcomes self;
     _sample_size := _sample_size self;
     _max_fail_rate := _max_fail_rate self;
     _cooldown_ms := _cooldown_ms self;
     _max_p95_ms := _max_p95_ms self;
     _name := _name self |}.

Definition set_outcomes (self : CircuitBreaker) (o : list (Q * bool)) : CircuitBreaker :=
  {| _state := _state self;
     _last_opened_at_ms := _last_opened_at_ms self;
     _outcomes := o;
     _sample_size := _sample_size self;
     _max_fail_rate := _max_fail_rate self;
     _cooldown_ms := _cooldown_ms self;
     _max_p95_ms := _max_p95_ms self;
     _name := _name self |}.

Definition state (self : CircuitBreaker) : BreakerState := _state self.

Definition can_probe (self : CircuitBreaker) : Run bool :=
  fun w =>
    if negb (state_eqb (_state self) open) then (false, w)
    else
      let '(now, w1) := now_ms_monotonic w in
      (Qle_bool (_cooldown_ms self) (now - _last_opened_at_ms self)%Q, w1).

Definition enter_probe (self : CircuitBreaker) : Run CircuitBreaker :=
  fun w =>
    let '(ok, w1) := can_probe self w in
    if ok then
      let self1 := set_state self probe in
      let '(_, w2) := emit (breaker_state_change (_name self1) (_state self1)) w1 in
      (self1, w2)
    else (self, w1).

(** [self._outcomes.append((ms, ok))], then one [pop(0)] when the window
    is longer than the sample size. *)
Definition _push_outcome (self : CircuitBreaker) (ms : Q) (ok : bool) : CircuitBreaker :=
  let appended := _outcomes self ++ [(ms, ok)] in
  if (_sample_size self <? Z.of_nat (length appended))%Z
  then set_outcomes self (tl appended)
  else set_outcomes self appended.

(** The two statistics [_evaluate] derives from the window. *)
Definition count_fails (outcomes : list (Q * bool)) : nat :=
  length (filter (fun o => negb (snd o) = true) outcomes).

Definition window_fail_rate (outcomes : list (Q * bool)) : Q :=
  match outcomes with
  | [] => 0%Q
  | _ => (inject_Z (Z.of_nat (count_fails outcomes))
          / inject_Z (Z.of_nat (length outcomes)))%Q
  end.

Definition window_p95 (outcomes : list (Q * bool)) : Q :=
  p95 (map fst outcomes).

Definition trips (self : CircuitBreaker) : bool :=
  Qle_bool (_max_fail_rate self) (window_fail_rate (_outcomes self))
  || Qle_bool (_max_p95_ms self) (window_p95 (_outcomes self)).

Definition _evaluate (self : CircuitBreaker) : Run CircuitBreaker :=
  fun w =>
    let fail_rate := window_fail_rate (_outcomes self) in
    let p95_ms := window_p95 (_outcomes self) in
    let '(_, w1) :=
      emit (breaker_rolling (_name self) (length (_outcomes self)) fail_rate p95_ms) w in
    if negb (state_eqb (_state self) open) && trips self then
      let self1 := set_state self open in
      let '(now, w2) := now_ms_monotonic w1 in
      let self2 := set_last_opened self1 now in
      let '(_, w3) := emit (breaker_state_change (_name self2) (_state self2)) w2 in
      (self2, w3)
    else (self, w1).

Definition success (self : CircuitBreaker) (ms : Q) : Run CircuitBreaker :=
  fun w =>
    let self1 := _push_outcome self ms true in
    if state_eqb (_state self1) probe then
      let self2 := set_state self1 closed in
      let '(_, w1) := emit (breaker_state_change (_name self2) (_state self2)) w in
      _evaluate self2 w1
    else _evaluate self1 w.

Definition failure (self : CircuitBreaker) (ms : Q) : Run CircuitBreaker :=
  fun w => _evaluate (_push_outcome self ms false) w.

(** ** Strings *)

(** [pat in s]. *)
Fixpoint contains (pat s : string) : bool :=
  String.prefix pat s ||
  match s with
  | EmptyString => false
  | String _ rest => contains pat rest
  end.

Definition lower_ascii (c : ascii) : ascii :=
  let n := nat_of_ascii c in
  if (65 <=? n)%nat && (n <=? 90)%nat then ascii_of_nat (n + 32) else c.

Fixpoint lower (s : string) : string :=
  match s with
  | EmptyString => EmptyString
  | String c rest => String (lower_ascii c) (lower rest)
  end.

Definition is_whitespace (c : ascii) : bool :=
  let n := nat_of_ascii c in
  ((9 <=? n)%nat && (n <=? 13)%nat) || ((28 <=? n)%nat && (n <=? 32)%nat).

Fixpoint lstrip (s : string) : string :=
  match s with
  | EmptyString => EmptyString
  | String c rest => if is_whitespace c then lstrip rest else s
  end.

Fixpoint rstrip (s : string) : string :=
  match s with
  | EmptyString => EmptyString
  | String c rest =>
      match rstrip rest with
      | EmptyString => if is_whitespace c then EmptyString else String c EmptyString
      | kept => String c kept
      end
  end.

Definition strip (s : string) : string := rstrip (lstrip s).

(** [s.split(sep)] for a one-character separator; [cur] is the piece
    being read. *)
Fixpoint split_from (sep : ascii) (cur s : string) : list string :=
  match s with
  | EmptyString => [cur]
  | String c rest =>
      if Ascii.eqb c sep then cur :: split_from sep EmptyString rest
      else split_from sep (cur +:+ String c EmptyString) rest
  end.

Definition split (sep : ascii) (s : string) : list string :=
  split_from sep EmptyString s.

(** [sep.join(parts)]. *)
Fixpoint join (sep : string) (parts : list string) : string :=
  match parts with
  | [] => EmptyString
  | [p] => p
  | p :: rest => p +:+ sep +:+ join sep rest
  end.

(** [str(n)] and [f"{n}"] for an integer. *)
Definition str_int (n : Z) : string := NilZero.string_of_int (Z.to_int n).

(** [sorted] on strings: ascending by code point. *)
Fixpoint insert_str (x : string) (l : list string) : list string :=
  match l with
  | [] => [x]
  | y :: t => if String.leb x y then x :: y :: t else y :: insert_str x t
  end.

Fixpoint sorted_str (l : list string) : list string :=
  match l with
  | [] => []
  | x :: t => insert_str x (sorted_str t)
  end.

(** [sorted(set(l))]: the distinct elements of [l], ascending. *)
Definition sorted_set (l : list string) : list string :=
  sorted_str (remove_dups l).

(** ** Timeout guard *)

(** [asyncio.wait_for] under a deadline.  [asyncio.TimeoutError] is the
    builtin [TimeoutError], so the first handler also takes a
    [TimeoutError] of the wrapped call; every other exception passes
    through the second handler's bare [raise] or past both. *)
Definition with_timeout {A} (coro : Sim A) (ms : Z) (label : string) : Sim A :=
  fun w =>
    match coro w with
    | (Ret a, w') => (Ret a, w')
    | (Late, w') => (Raise (TimeoutError ("timeout_" +:+ label)), w')
    | (Raise (TimeoutError _), w') => (Raise (TimeoutError ("timeout_" +:+ label)), w')
    | (Raise e, w') => (Raise e, w')
    end.

(** ** Third-party services *)

Definition answer {A} (r : Reply A) (w : World) : outcome A * World :=
  match r with
  | Returned a => (Ret a, w)
  | Raised e => (Raise e, w)
  | Hangs => (Late, w)
  end.

(** The supplier pricing API: the reply to the n-th call is the world's. *)
Definition fetch_supplier_price (sku : string) (region : Region) : Sim Z :=
  fun w =>
    answer (supplier_api w (length (supplier_calls w)) sku region)
      {| clock_mono := clock_mono w; ticks_mono := ticks_mono w;
         clock_wall := clock_wall w; ticks_wall := ticks_wall w;
         supplier_api := supplier_api w;
         supplier_calls := supplier_calls w ++ [(sku, region)];
         allergen_api := allergen_api w; allergen_calls := allergen_calls w;
         llm_calls := llm_calls w;
         price_cache := price_cache w; metrics := metrics w |}.

(** The allergen checker. *)
Definition fetch_allergens (recipe_id : string) (ingr : list string)
    : Sim (list string) :=
  fun w =>
    answer (allergen_api w (length (allergen_calls w)) recipe_id ingr)
      {| clock_mono := clock_mono w; ticks_mono := ticks_mono w;
         clock_wall := clock_wall w; ticks_wall := ticks_wall w;
         supplier_api := supplier_api w; supplier_calls := supplier_calls w;
         allergen_api := allergen_api w;
         allergen_calls := allergen_calls w ++ [recipe_id];
         llm_calls := llm_calls w;
         price_cache := price_cache w; metrics := metrics w |}.

(** The conservative completion: always the same over-inclusive list. *)
Definition llm_complete (prompt : string) (max_tokens : Z) (temperature : Q)
    : Sim string :=
  fun w =>
    (Ret "gluten, dairy, nuts, soy",
     {| clock_mono := clock_mono w; ticks_mono := ticks_mono w;
        clock_wall := clock_wall w; ticks_wall := ticks_wall w;
        supplier_api := supplier_api w; supplier_calls := supplier_calls w;
        allergen_api := allergen_api w; allergen_calls := allergen_calls w;
        llm_calls := llm_calls w ++ [prompt];
        price_cache := price_cache w; metrics := metrics w |}).

(** ** Fallback store and estimation *)

(** [price_cache.get(sku)]. *)
Definition cache_get (sku : string) : Run (option CacheEntry) :=
  fun w => (price_cache w !! sku, w).

(** [price_cache[sku] = entry]. *)
Definition cache_set (sku : string) (entry : CacheEntry) : Run unit :=
  fun w =>
    (tt, {| clock_mono := clock_mono w; ticks_mono := ticks_mono w;
            clock_wall := clock_wall w; ticks_wall := ticks_wall w;
            supplier_api := supplier_api w; supplier_calls := supplier_calls w;
            allergen_api := allergen_api w; allergen_calls := allergen_calls w;
            llm_calls := llm_calls w;
            price_cache := <[sku := entry]> (price_cache w);
            metrics := metrics w |}).

Definition baseline_estimate_cents (sku : string) : Z :=
  if contains "STEAK" sku then 399
  else if contains "FISH" sku then 349
  else if contains "PASTA" sku then 149
  else 250.

(** [a // b] and [a % b] on floats with [b] positive. *)
Definition floordiv (a b : Q) : Z := Qfloor (a / b)%Q.
Definition pymod (a b : Q) : Q := (a - b * inject_Z (floordiv a b))%Q.

Definition freshness_label (ts_ms : Q) : Run string :=
  fun w =>
    let '(now, w1) := now_ms_wall w in
    let age_ms := (now - ts_ms)%Q in
    let hours := floordiv age_ms (inject_Z (1000 * 60 * 60)) in
    let mins := floordiv (pymod age_ms (inject_Z (1000 * 60 * 60)))
                         (inject_Z (1000 * 60)) in
    (if (0 <? hours)%Z
     then str_int hours +:+ "h " +:+ str_int mins +:+ "m old"
     else str_int mins +:+ "m old", w1).

(** ** Supplier client: primary region, mirror region, cache, baseline *)

Definition region_eqb (a b : Region) : bool :=
  match a, b with
  | us_east, us_east | us_west, us_west => true
  | _, _ => false
  end.

(** [self._breakers]: one breaker per region. *)
Record SupplierClient := { _breakers : Region -> CircuitBreaker }.

Definition new_supplier_client : SupplierClient :=
  {| _breakers := fun r =>
       match r with
       | us_east => new_breaker 40 (4 # 10) 15000 1200 "supplier_us-east"
       | us_west => new_breaker 40 (4 # 10) 15000 1200 "supplier_us-west"
       end |}.

(** The breaker object of [region] after its methods have run. *)
Definition store_breaker (self : SupplierClient) (region : Region)
    (brk : CircuitBreaker) : SupplierClient :=
  {| _breakers := fun r => if region_eqb r region then brk else _breakers self r |}.

Definition _try_region (sku : string) (region : Region) : Sim (Z * Q) :=
  (start <- lift now_ms_monotonic ;;
   res <- fetch_supplier_price sku region ;;
   finish <- lift now_ms_monotonic ;;
   ret (res, (finish - start)%Q))%sim.

(** [brk.state() == "open" and not brk.can_probe()]. *)
Definition open_and_cannot_probe (brk : CircuitBreaker) : Run bool :=
  fun w =>
    if state_eqb (state brk) open
    then let '(ok, w1) := can_probe brk w in (negb ok, w1)
    else (false, w).

(** [if brk.can_probe(): brk.enter_probe()]. *)
Definition probe_if_due (brk : CircuitBreaker) : Run CircuitBreaker :=
  fun w =>
    let '(ok, w1) := can_probe brk w in
    if ok then enter_probe brk w1 else (brk, w1).

(** The closure [attempt] of [get_price].  It shares [self] and the list
    [reasons] with its caller, so both are passed in and handed back; a
    returned [PriceResult] carries the list as it stands at that point,
    and its [freshness] is the caller's, still [None]. *)
Definition attempt (self : SupplierClient) (sku : string)
    (reasons : list string) (region : Region)
    : Sim (option PriceResult * SupplierClient * list string) :=
  (let brk := _breakers self region in
   skip <- lift (open_and_cannot_probe brk) ;;
   if skip : bool then
     lift (emit (supplier_skip_open region sku)) ;;;
     ret (None, self, reasons ++ ["supplier_open"])
   else
     brk <- lift (probe_if_due brk) ;;
     try_except
       (r <- with_timeout (_try_region sku region) 900
               ("supplier_" +:+ region_str region) ;;
        brk1 <- lift (success brk (snd r)) ;;
        now <- lift now_ms_wall ;;
        lift (cache_set sku {| entry_cents := fst r; entry_ts := now |}) ;;;
        lift (emit (supplier_success region sku (snd r) (state brk1))) ;;;
        ret (Some {| cents := fst r;
                     is_degraded := (0 <? length reasons)%nat;
                     reasons := reasons;
                     freshness := None |},
             store_breaker self region brk1, reasons))
       (fun e =>
          let err := to_error e in
          brk1 <- lift (failure brk (inject_Z 900)) ;;
          let reasons1 := reasons ++ ["supplier_error_" +:+ region_str region] in
          lift (emit (supplier_error region sku (exn_str err) (state brk1))) ;;;
          ret (None, store_breaker self region brk1, reasons1)))%sim.

Definition get_price (self : SupplierClient) (sku : string) (preferred : Region)
    : Sim (PriceResult * SupplierClient) :=
  (let primary := preferred in
   let mirror := if region_eqb preferred us_east then us_west else us_east in
   a1 <- attempt self sku [] primary ;;
   match a1 with
   | (Some p1, self1, _) => ret (p1, self1)
   | (None, self1, reasons1) =>
       a2 <- attempt self1 sku reasons1 mirror ;;
       match a2 with
       | (Some p2, self2, _) =>
           ret ({| cents := cents p2;
                   is_degraded := true;
                   reasons := reasons p2 ++ ["used_mirror"];
                   freshness := freshness p2 |}, self2)
       | (None, self2, reasons2) =>
           cached <- lift (cache_get sku) ;;
           match cached with
           | Some entry =>
               fresh <- lift (freshness_label (entry_ts entry)) ;;
               lift (emit (supplier_fallback_cache sku fresh)) ;;;
               ret ({| cents := entry_cents entry;
                       is_degraded := true;
                       reasons := reasons2 ++ ["used_cache"];
                       freshness := Some fresh |}, self2)
           | None =>
               let c := baseline_estimate_cents sku in
               lift (emit (supplier_fallback_baseline sku c)) ;;;
               ret ({| cents := c;
                       is_degraded := true;
                       reasons := reasons2 ++ ["used_baseline"];
                       freshness := None |}, self2)
           end
       end
   end)%sim.

(** ** Allergen client: third party, then local tags united with the
    conservative completion *)

Record AllergenClient := { _breaker : CircuitBreaker }.

Definition new_allergen_client : AllergenClient :=
  {| _breaker := new_breaker 30 (35 # 100) 12000 1000 "allergen" |}.

Definition newline : string := String (ascii_of_nat 10) EmptyString.

Definition allergen_prompt (recipe : Recipe) : string :=
  "Given ingredients: " +:+ join ", " (ingredients recipe) +:+ newline
  +:+ "Return a short list of likely allergens. If unsure, include it.".

(** [[s.strip().lower() for s in llm_raw.split(",") if s.strip()]]. *)
Definition parse_llm_items (llm_raw : string) : list string :=
  map (fun s => lower (strip s))
      (List.filter (fun s => negb (String.eqb (strip s) EmptyString))
                   (split "," llm_raw)).

(** The primary step of [allergens_for]: [inl] is its early [return],
    [inr] carries the breaker and the reasons on to the fallbacks. *)
Definition allergen_primary (self : AllergenClient) (recipe : Recipe)
    : Sim (AllergenResult.t * AllergenClient + AllergenClient * list string) :=
  (let brk := _breaker self in
   blocked <- lift (open_and_cannot_probe brk) ;;
   if blocked : bool then
     ret (inr (self, ["allergen_open"]))
   else
     brk <- lift (probe_if_due brk) ;;
     start <- lift now_ms_monotonic ;;
     try_except
       (its <- with_timeout (fetch_allergens (id recipe) (ingredients recipe))
                 800 "allergen" ;;
        finish <- lift now_ms_monotonic ;;
        brk1 <- lift (success brk (finish - start)%Q) ;;
        ret (inl ({| AllergenResult.items := its;
                     AllergenResult.is_degraded := false;
                     AllergenResult.reasons := [] |},
                  {| _breaker := brk1 |})))
       (fun e =>
          let err := to_error e in
          brk1 <- lift (failure brk (inject_Z 800)) ;;
          let tag := if contains "timeout" (lower (exn_str err))
                     then "allergen_timeout" else "allergen_invalid_json" in
          lift (emit (allergen_error (id recipe) (exn_str err) (state brk1))) ;;;
          ret (inr ({| _breaker := brk1 |}, [tag]))))%sim.

Definition allergens_for (self : AllergenClient) (recipe : Recipe)
    : Sim (AllergenResult.t * AllergenClient) :=
  (first <- allergen_primary self recipe ;;
   match first with
   | inl done => ret done
   | inr (self1, reasons) =>
       let local := sorted_set (map lower (allergen_tags recipe)) in
       let reasons1 := reasons ++ ["allergen_fallback_local_tags"] in
       llm_raw <- llm_complete (allergen_prompt recipe) 80 0%Q ;;
       let llm_items := parse_llm_items llm_raw in
       let reasons2 := reasons1 ++ ["allergen_fallback_llm"] in
       let its := sorted_set (local ++ llm_items) in
       ret ({| AllergenResult.items := its;
               AllergenResult.is_degraded := true;
               AllergenResult.reasons := reasons2 |}, self1)
   end)%sim.

(** ** Callers used in the statements *)

(** The reading the monotonic clock gives next. *)
Definition next_mono (w : World) : Q := clock_mono w (ticks_mono w).

(** Report one outcome: [success(ms)] or [failure(ms)]. *)
Definition report (b : CircuitBreaker) (sample : Q * bool) : Run CircuitBreaker :=
  if snd sample then success b (fst sample) else failure b (fst sample).

(** Report a sequence of outcomes, oldest first. *)
Fixpoint feed (b : CircuitBreaker) (samples : list (Q * bool)) : Run CircuitBreaker :=
  fun w =>
    match samples with
    | [] => (b, w)
    | s :: rest => let '(b1, w1) := report b s w in feed b1 rest w1
    end.

(** The trip test of [_evaluate] on a window, for given thresholds. *)
Definition trips_on (rate max_p95 : Q) (window : list (Q * bool)) : bool :=
  Qle_bool rate (window_fail_rate window)
  || Qle_bool max_p95 (window_p95 window).

(** A world whose services take their replies from the arguments, with
    nothing called, cached or logged yet. *)
Definition make_world (mono wall : nat -> Q)
    (supplier : nat -> string -> Region -> Reply Z)
    (allergen : nat -> string -> list string -> Reply (list string))
    (cache : gmap string CacheEntry) : World :=
  {| clock_mono := mono; ticks_mono := 0;
     clock_wall := wall; ticks_wall := 0;
     supplier_api := supplier; supplier_calls := [];
     allergen_api := allergen; allergen_calls := [];
     llm_calls := [];
     price_cache := cache; metrics := [] |}.

(** A world in which the n-th reading of either clock is [step * n] and
    every third-party call fails with a bad gateway. *)
Definition failing_world (step : Z) (cache : gmap string CacheEntry) : World :=
  make_world (fun n => inject_Z (step * Z.of_nat n))
             (fun n => inject_Z (step * Z.of_nat n))
             (fun _ _ _ => Raised (Exception "502_bad_gateway"))
             (fun _ _ _ => Raised (Exception "invalid_json_schema_change"))
             cache.

(** ** The percentile as the specification words it *)

(** [ceil(0.95 * len) - 1]. *)
Definition nearest_rank_index (len : nat) : nat := (95 * len + 99) / 100 - 1.

(** The nearest-rank percentile at that index of the durations sorted
    ascending, 0 for an empty window. *)
Definition p95_nearest_rank (values : list Q) : Q :=
  match values with
  | [] => 0%Q
  | _ => nth (nearest_rank_index (length values)) (sorted values) 0%Q
  end.

(** [quiet w w']: from [w] to [w'] only the monotonic clock has been read
    and metrics emitted; the services, their call logs, the wall clock and
    the cache are as they were. *)
Definition quiet (w w' : World) : Prop :=
  clock_mono w' = clock_mono w /\
  clock_wall w' = clock_wall w /\ ticks_wall w' = ticks_wall w /\
  supplier_api w' = supplier_api w /\ supplier_calls w' = supplier_calls w /\
  allergen_api w' = allergen_api w /\ allergen_calls w' = allergen_calls w /\
  llm_calls w' = llm_calls w /\
  price_cache w' = price_cache w.

(** The price a run of [get_price] handed back, if it returned. *)
Definition returned_price (run : outcome (PriceResult * SupplierClient) * World)
    : option PriceResult :=
  match fst run with
  | Ret (r, _) => Some r
  | _ => None
  end.

(** [mirror] of [get_price]. *)
Definition mirror_of (preferred : Region) : Region :=
  if region_eqb preferred us_east then us_west else us_east.

(** The supplier client after its us-west breaker has taken one failure
    at monotonic time 0 and opened; the us-east breaker is new. *)
Definition west_open_client : SupplierClient :=
  store_breaker new_supplier_client us_west
    (fst (failure (_breakers new_supplier_client us_west) (inject_Z 900)
            (failing_world 1 ∅))).

(** A cache holding 199 cents for SKU X, stored 30 minutes before wall
    time 0. *)
Definition cache_x_199 : gmap string CacheEntry :=
  {[ "X" := {| entry_cents := 199; entry_ts := inject_Z (- (1000 * 60 * 30)) |} ]}.

(** Ascending order on strings, as [sorted] compares them. *)
Definition str_le (x y : string) : Prop := String.leb x y = true.

(** ** Further callers used in the statements *)

(** The capacity of the window as a length. *)
Definition capacity (b : CircuitBreaker) : nat := Z.to_nat (_sample_size b).

(** How many of [values] are at least, respectively at most, [m]. *)
Definition count_at_least (m : Q) (values : list Q) : nat :=
  length (filter (fun y => Qle_bool m y = true) values).

Definition count_at_most (m : Q) (values : list Q) : nat :=
  length (filter (fun y => Qle_bool y m = true) values).

(** [pat] occurs in [s]: some text, then [pat], then some text. *)
Definition occurs_in (pat s : string) : Prop :=
  exists pre post : string, s = pre +:+ pat +:+ post.

(** ** The mock integrations, after their random draws *)

(** [re.search(r"(w1|w2|...)", text)]: one of the words occurs in [text]. *)
Definition search_any (words : list string) (text : string) : bool :=
  existsb (fun word => contains word text) words.

(** The list [fetch_allergens] builds and returns when it answers. *)
Definition detect_allergens (ingr : list string) : list string :=
  let text := lower (join " " ingr) in
  (if search_any ["milk"; "cheese"; "butter"; "cream"; "yogurt"; "dairy"] text
   then ["dairy"] else [])
  ++ (if search_any ["wheat"; "flour"; "bread"; "pasta"; "gluten"] text
      then ["gluten"] else [])
  ++ (if search_any ["peanut"; "almond"; "walnut"; "nut"] text
      then ["nuts"] else [])
  ++ (if search_any ["soy"; "tofu"; "edamame"] text
      then ["soy"] else []).

(** [sum(ord(c) for c in sku)]. *)
Fixpoint ord_sum (s : string) : Z :=
  match s with
  | EmptyString => 0
  | String c rest => Z.of_nat (nat_of_ascii c) + ord_sum rest
  end.

(** What [fetch_supplier_price] does once its sleep is over, for the
    draw [r] of [random.random()]: throttle, fail, or return the price
    derived from the SKU. *)
Definition supplier_mock_outcome (r : Q) (sku : string) (region : Region)
    : outcome Z :=
  let throttle_chance :=
    match region with us_west => (25 # 100)%Q | us_east => (5 # 100)%Q end in
  let fail_chance :=
    match region with us_west => (10 # 100)%Q | us_east => (3 # 100)%Q end in
  if negb (Qle_bool throttle_chance r) then Raise (Exception "429_throttle")
  else if negb (Qle_bool (throttle_chance + fail_chance)%Q r)
       then Raise (Exception "502_bad_gateway")
       else Ret (100 + ord_sum sku mod 400)%Z.

(** The supplier client and the world left by one lookup during which
    every supplier call failed. *)
Definition after_failed_lookup : SupplierClient * World :=
  match get_price new_supplier_client "X" us_east (failing_world 1 ∅) with
  | (Ret (_, self'), w') => (self', w')
  | (_, w') => (new_supplier_client, w')
  end.

(** The tag [allergens_for] gives a failed primary call. *)
Definition allergen_failure_tag (reply : Reply (list string)) : string :=
  match reply with
  | Raised (Exception m) | Raised (BaseException m) =>
      if contains "timeout" (lower m)
      then "allergen_timeout" else "allergen_invalid_json"
  | _ => "allergen_timeout"
  end.

(** * Properties *)

(** ** The breaker state machine *)

Section Breaker.

Implicit Types (b : CircuitBreaker) (w : World) (ms : Q) (ok : bool).

Lemma push_outcome_state b ms ok : _state (_push_outcome b ms ok) = _state b.
Proof. unfold _push_outcome. now destruct (_ <? _)%Z. Qed.

Lemma push_outcome_last_opened b ms ok :
  _last_opened_at_ms (_push_outcome b ms ok) = _last_opened_at_ms b.
Proof. unfold _push_outcome. now destruct (_ <? _)%Z. Qed.

Lemma push_outcome_config b ms ok :
  let b' := _push_outcome b ms ok in
  _sample_size b' = _sample_size b /\ _max_fail_rate b' = _max_fail_rate b /\
  _cooldown_ms b' = _cooldown_ms b /\ _max_p95_ms b' = _max_p95_ms b /\
  _name b' = _name b.
Proof. unfold _push_outcome. now destruct (_ <? _)%Z. Qed.

Lemma state_eqb_eq (s t : BreakerState) : state_eqb s t = true <-> s = t.
Proof. destruct s, t; simpl; split; congruence. Qed.

Lemma state_eqb_neq (s t : BreakerState) : state_eqb s t = false <-> s <> t.
Proof. destruct s, t; simpl; split; congruence. Qed.

(** While open, the evaluation changes nothing. *)
Lemma evaluate_open b w : _state b = open -> fst (_evaluate b w) = b.
Proof. intros H. unfold _evaluate. simpl. now rewrite H. Qed.

(** Otherwise it opens the breaker, stamped with the clock, exactly when a
    threshold is reached. *)
Lemma evaluate_not_open b w :
  _state b <> open ->
  fst (_evaluate b w) =
    if trips b then set_last_opened (set_state b open) (next_mono w) else b.
Proof.
  intros H. apply state_eqb_neq in H. unfold _evaluate. simpl.
  rewrite H. simpl. now destruct (trips b).
Qed.

Lemma success_open b ms w :
  _state b = open -> fst (success b ms w) = _push_outcome b ms true.
Proof.
  intros H. unfold success. rewrite push_outcome_state, H. simpl.
  apply evaluate_open. now rewrite push_outcome_state.
Qed.

Lemma failure_open b ms w :
  _state b = open -> fst (failure b ms w) = _push_outcome b ms false.
Proof.
  intros H. unfold failure. apply evaluate_open. now rewrite push_outcome_state.
Qed.

Lemma success_closed b ms w :
  _state b = closed ->
  fst (success b ms w) =
    let b1 := _push_outcome b ms true in
    if trips b1 then set_last_opened (set_state b1 open) (next_mono w) else b1.
Proof.
  intros H. unfold success. rewrite push_outcome_state, H. simpl.
  apply evaluate_not_open. rewrite push_outcome_state, H. discriminate.
Qed.

Lemma failure_not_open b ms w :
  _state b <> open ->
  fst (failure b ms w) =
    let b1 := _push_outcome b ms false in
    if trips b1 then set_last_opened (set_state b1 open) (next_mono w) else b1.
Proof.
  intros H. unfold failure. apply evaluate_not_open. now rewrite push_outcome_state.
Qed.

Lemma success_probe b ms w :
  _state b = probe ->
  fst (success b ms w) =
    let b1 := set_state (_push_outcome b ms true) closed in
    if trips b1 then set_last_opened (set_state b1 open) (next_mono w) else b1.
Proof.
  intros H. unfold success. rewrite push_outcome_state, H. simpl.
  rewrite evaluate_not_open by (simpl; discriminate). reflexivity.
Qed.

Lemma can_probe_not_open b w : _state b <> open -> can_probe b w = (false, w).
Proof. intros H. apply state_eqb_neq in H. unfold can_probe. now rewrite H. Qed.

Lemma can_probe_open b w :
  _state b = open ->
  fst (can_probe b w) = Qle_bool (_cooldown_ms b) (next_mono w - _last_opened_at_ms b)%Q.
Proof. intros H. unfold can_probe. now rewrite H. Qed.

Lemma enter_probe_value b w :
  fst (enter_probe b w) = if fst (can_probe b w) then set_state b probe else b.
Proof.
  unfold enter_probe. destruct (can_probe b w) as [[] w1]; reflexivity.
Qed.

End Breaker.

(** C10.  Once open, [success] and [failure] leave the state and the
    opening time alone while still pushing their sample into the window;
    [enter_probe] is the one way out of open, and it moves (to probe) only
    from open with the cooldown elapsed: from closed or probe, or before
    the cooldown has elapsed, it changes nothing. *)
Theorem open_left_only_by_enter_probe :
  (forall b ms ok w,
     _state b = open ->
     let b' := fst (report b (ms, ok) w) in
     _state b' = open /\
     _last_opened_at_ms b' = _last_opened_at_ms b /\
     _outcomes b' =
       (if (_sample_size b <? Z.of_nat (length (_outcomes b ++ [(ms, ok)])))%Z
        then tl (_outcomes b ++ [(ms, ok)])
        else _outcomes b ++ [(ms, ok)])) /\
  (forall b w, _state b = open -> fst (_evaluate b w) = b) /\
  (forall b w,
     _state b = open ->
     (_cooldown_ms b <= next_mono w - _last_opened_at_ms b)%Q ->
     fst (enter_probe b w) = set_state b probe) /\
  (forall b w,
     _state b <> open \/ (next_mono w - _last_opened_at_ms b < _cooldown_ms b)%Q ->
     fst (enter_probe b w) = b).
Proof.
  repeat split.
  - destruct ok; unfold report; simpl;
      [rewrite success_open | rewrite failure_open]; trivial;
      now rewrite push_outcome_state.
  - destruct ok; unfold report; simpl;
      [rewrite success_open | rewrite failure_open]; trivial;
      now rewrite push_outcome_last_opened.
  - destruct ok; unfold report; simpl;
      [rewrite success_open | rewrite failure_open]; trivial;
      unfold _push_outcome; now destruct (_ <? _)%Z.
  - apply evaluate_open.
  - intros b w Ho Hc. rewrite enter_probe_value, can_probe_open by assumption.
    apply Qle_bool_iff in Hc. now rewrite Hc.
  - intros b w [Hn | Hc]; rewrite enter_probe_value.
    + now rewrite can_probe_not_open.
    + destruct (state_eqb (_state b) open) eqn:E.
      * apply state_eqb_eq in E. rewrite can_probe_open by assumption.
        destruct (Qle_bool _ _) eqn:L; trivial.
        apply Qle_bool_iff in L. now apply Qlt_not_le in Hc.
      * apply state_eqb_neq in E. now rewrite can_probe_not_open.
Qed.

Lemma open_left_only_by_enter_probe_witness :
  _state (fst (report (set_state (new_breaker 40 (4 # 10) 15000 1200 "b") open)
                      (100%Q, true) (failing_world 1 ∅))) = open
  /\ fst (enter_probe (new_breaker 40 (4 # 10) 15000 1200 "b") (failing_world 1 ∅))
     = new_breaker 40 (4 # 10) 15000 1200 "b".
Proof.
  destruct open_left_only_by_enter_probe as (Hrep & _ & _ & Hstay).
  split.
  - apply (Hrep (set_state (new_breaker 40 (4 # 10) 15000 1200 "b") open)
                100%Q true (failing_world 1 ∅)).
    reflexivity.
  - apply Hstay. left. discriminate.
Defined.

(** *** Feeding a sequence of outcomes *)

Lemma feed_cons b s rest w :
  feed b (s :: rest) w = feed (fst (report b s w)) rest (snd (report b s w)).
Proof. simpl. now destruct (report b s w). Qed.

Lemma feed_app b l1 l2 w :
  feed b (l1 ++ l2) w = feed (fst (feed b l1 w)) l2 (snd (feed b l1 w)).
Proof.
  revert b w. induction l1 as [|s l1 IH]; intros b w; [reflexivity|].
  rewrite <- app_comm_cons, !feed_cons. apply IH.
Qed.

Lemma report_open b s w :
  _state b = open ->
  fst (report b s w) = _push_outcome b (fst s) (snd s).
Proof.
  intros H. unfold report. destruct (snd s);
    [now apply success_open | now apply failure_open].
Qed.

Lemma feed_open b l w :
  _state b = open ->
  _state (fst (feed b l w)) = open /\
  _last_opened_at_ms (fst (feed b l w)) = _last_opened_at_ms b.
Proof.
  revert b w. induction l as [|s l IH]; intros b w H; [now split|].
  rewrite feed_cons.
  pose proof (report_open b s w H) as E.
  destruct (IH (fst (report b s w)) (snd (report b s w))) as [H1 H2].
  { now rewrite E, push_outcome_state. }
  split; [exact H1|]. now rewrite H2, E, push_outcome_last_opened.
Qed.

(** Whatever the state, the window after a report is the pushed window. *)
Lemma evaluate_outcomes b w : _outcomes (fst (_evaluate b w)) = _outcomes b.
Proof.
  destruct (state_eqb (_state b) open) eqn:E.
  - apply state_eqb_eq in E. now rewrite evaluate_open.
  - apply state_eqb_neq in E. rewrite evaluate_not_open by assumption.
    now destruct (trips b).
Qed.

Lemma evaluate_config b w :
  let b' := fst (_evaluate b w) in
  _sample_size b' = _sample_size b /\ _max_fail_rate b' = _max_fail_rate b /\
  _cooldown_ms b' = _cooldown_ms b /\ _max_p95_ms b' = _max_p95_ms b /\
  _name b' = _name b.
Proof.
  simpl. destruct (state_eqb (_state b) open) eqn:E.
  - apply state_eqb_eq in E. now rewrite evaluate_open.
  - apply state_eqb_neq in E. rewrite evaluate_not_open by assumption.
    now destruct (trips b).
Qed.

Lemma report_outcomes b s w :
  _outcomes (fst (report b s w)) = _outcomes (_push_outcome b (fst s) (snd s)).
Proof.
  unfold report, success, failure. destruct (snd s).
  - destruct (state_eqb _ probe); simpl; now rewrite evaluate_outcomes.
  - now rewrite evaluate_outcomes.
Qed.

Lemma report_config b s w :
  let b' := fst (report b s w) in
  _sample_size b' = _sample_size b /\ _max_fail_rate b' = _max_fail_rate b /\
  _cooldown_ms b' = _cooldown_ms b /\ _max_p95_ms b' = _max_p95_ms b /\
  _name b' = _name b.
Proof.
  pose proof (push_outcome_config b (fst s)) as P.
  unfold report, success, failure. simpl.
  destruct (snd s); [destruct (state_eqb _ probe); simpl|];
    match goal with
    | |- context [_evaluate ?x ?y] =>
        destruct (evaluate_config x y) as (-> & -> & -> & -> & ->)
    end;
    first [apply (P true) | apply (P false)].
Qed.

(** Pushing within capacity appends. *)
Lemma push_within_capacity b ms ok :
  (Z.of_nat (length (_outcomes b)) < _sample_size b)%Z ->
  _outcomes (_push_outcome b ms ok) = _outcomes b ++ [(ms, ok)].
Proof.
  intros H. unfold _push_outcome.
  destruct (_ <? _)%Z eqn:E; [|reflexivity].
  apply Z.ltb_lt in E. rewrite length_app in E. simpl in E. lia.
Qed.

Lemma feed_within_capacity b l w :
  (Z.of_nat (length (_outcomes b) + length l) <= _sample_size b)%Z ->
  _outcomes (fst (feed b l w)) = _outcomes b ++ l.
Proof.
  revert b w. induction l as [|s l IH]; intros b w H.
  - now rewrite app_nil_r.
  - rewrite feed_cons. simpl in H.
    assert (E : _outcomes (fst (report b s w)) = _outcomes b ++ [s]).
    { rewrite report_outcomes, push_within_capacity by lia. now destruct s. }
    rewrite IH.
    + rewrite E, <- app_assoc. reflexivity.
    + destruct (report_config b s w) as (-> & _).
      rewrite E, length_app. simpl. lia.
Qed.

(** Every sample of the window was in it before or has been fed. *)
Lemma push_outcome_elems b ms ok x :
  x ∈ _outcomes (_push_outcome b ms ok) -> x ∈ _outcomes b \/ x = (ms, ok).
Proof.
  unfold _push_outcome. intros H.
  assert (Hx : x ∈ _outcomes b ++ [(ms, ok)]).
  { destruct (_ <? _)%Z; simpl in H; [|exact H].
    destruct (_outcomes b ++ [(ms, ok)]); simpl in H; [exact H|].
    now apply list_elem_of_further. }
  apply elem_of_app in Hx as [Hx | Hx]; [now left|].
  right. now apply list_elem_of_singleton in Hx.
Qed.

Lemma feed_elems b l w x :
  x ∈ _outcomes (fst (feed b l w)) -> x ∈ _outcomes b \/ x ∈ l.
Proof.
  revert b w. induction l as [|s l IH]; intros b w H; [now left|].
  rewrite feed_cons in H. apply IH in H as [H | H].
  - rewrite report_outcomes in H. apply push_outcome_elems in H as [H | H].
    + now left.
    + right. subst x. destruct s. apply list_elem_of_here.
  - right. now apply list_elem_of_further.
Qed.

Lemma count_fails_all_ok (l : list (Q * bool)) :
  (forall x, x ∈ l -> snd x = true) -> count_fails l = 0.
Proof.
  intros H. unfold count_fails. induction l as [|x l IH]; [reflexivity|].
  rewrite filter_cons. destruct (decide _) as [D | D].
  - rewrite (H x) in D by apply list_elem_of_here. discriminate.
  - apply IH. intros y Hy. apply H. now apply list_elem_of_further.
Qed.

Lemma fail_rate_no_fails (l : list (Q * bool)) :
  count_fails l = 0 -> (window_fail_rate l == 0)%Q.
Proof.
  intros H. unfold window_fail_rate. destruct l; [reflexivity|].
  rewrite H. unfold Qdiv. simpl inject_Z at 1. apply Qmult_0_l.
Qed.

Lemma trips_iff b :
  trips b = true <->
  (_max_fail_rate b <= window_fail_rate (_outcomes b))%Q \/
  (_max_p95_ms b <= window_p95 (_outcomes b))%Q.
Proof.
  unfold trips. rewrite orb_true_iff, !Qle_bool_iff. reflexivity.
Qed.

Lemma report_closed b s w :
  _state b = closed ->
  fst (report b s w) =
    let b1 := _push_outcome b (fst s) (snd s) in
    if trips b1 then set_last_opened (set_state b1 open) (next_mono w) else b1.
Proof.
  intros H. unfold report. destruct (snd s).
  - now apply success_closed.
  - apply failure_not_open. rewrite H. discriminate.
Qed.

(** C3 (evaluation of the code).  A fresh supplier breaker takes one
    failure and opens; after the cooldown [enter_probe] moves it to probe;
    the probe call succeeds, and [success] closes the breaker and then
    re-evaluates a window that holds one failure in two samples, which opens
    it again: the state after the successful probe is open, not closed. *)
Theorem probe_success_reopens_on_stale_window :
  let w0 := failing_world 20000 ∅ in
  let b0 := new_breaker 40 (4 # 10) 15000 1200 "supplier_us-east" in
  let b1 := fst (failure b0 900%Q w0) in
  let w1 := snd (failure b0 900%Q w0) in
  let b2 := fst (enter_probe b1 w1) in
  let w2 := snd (enter_probe b1 w1) in
  let b3 := fst (success b2 120%Q w2) in
  _state b1 = open /\ _state b2 = probe /\
  _outcomes b3 = [(900%Q, false); (120%Q, true)] /\
  _state b3 = open.
Proof. vm_compute. repeat split. Qed.

(** C4 (evaluation of the code).  A breaker of capacity 40 opens on a
    first failure, receives 39 successes while open, and is moved to probe
    after the cooldown.  The probe call fails: the failure is pushed, the
    oldest sample leaves the window, the failure rate is 1/40 and the
    p95 latency 100 ms, so no threshold is reached and the breaker stays in
    probe with its old opening time. *)
Theorem probe_failure_stays_probe_on_healthy_window :
  let w0 := failing_world 20000 ∅ in
  let b0 := new_breaker 40 (4 # 10) 15000 1200 "supplier_us-east" in
  let b1 := fst (feed b0 ((900%Q, false) :: repeat (100%Q, true) 39) w0) in
  let w1 := snd (feed b0 ((900%Q, false) :: repeat (100%Q, true) 39) w0) in
  let b2 := fst (enter_probe b1 w1) in
  let w2 := snd (enter_probe b1 w1) in
  let b3 := fst (failure b2 900%Q w2) in
  _state b1 = open /\ _state b2 = probe /\
  _outcomes b3 = repeat (100%Q, true) 39 ++ [(900%Q, false)] /\
  _state b3 = probe /\
  _last_opened_at_ms b3 = _last_opened_at_ms b1 /\
  _last_opened_at_ms b3 <> next_mono w2.
Proof. vm_compute. repeat split. discriminate. Qed.

(** ** Rolling-window statistics *)

Section Percentile.

Lemma insert_sorted_perm x l : insert_sorted x l ≡ₚ x :: l.
Proof.
  induction l as [|y t IH]; simpl; [reflexivity|].
  destruct (Qle_bool x y); [reflexivity|].
  rewrite IH. apply perm_swap.
Qed.

Lemma sorted_perm values : sorted values ≡ₚ values.
Proof.
  induction values as [|x t IH]; simpl; [reflexivity|].
  now rewrite insert_sorted_perm, IH.
Qed.

Lemma sorted_length values : length (sorted values) = length values.
Proof. now rewrite sorted_perm. Qed.

Lemma insert_sorted_hd x l a :
  HdRel Qle a l -> (a <= x)%Q -> HdRel Qle a (insert_sorted x l).
Proof.
  intros H Hax. destruct l as [|y t]; simpl; [now constructor|].
  destruct (Qle_bool x y); constructor; trivial. now inversion H.
Qed.

Lemma insert_sorted_ascending x l :
  Sorted Qle l -> Sorted Qle (insert_sorted x l).
Proof.
  induction 1 as [|y t Hs IH Hd]; simpl; [repeat constructor|].
  destruct (Qle_bool x y) eqn:E.
  - constructor; [now constructor|]. constructor. now apply Qle_bool_iff.
  - constructor; [exact IH|]. apply insert_sorted_hd; [exact Hd|].
    apply Qlt_le_weak, Qnot_le_lt. intros L. apply Qle_bool_iff in L. congruence.
Qed.

Lemma sorted_ascending values : Sorted Qle (sorted values).
Proof.
  induction values; simpl; [constructor | now apply insert_sorted_ascending].
Qed.

Lemma int_095_floor n : 100 * int_095 n <= 95 * n < 100 * (int_095 n + 1).
Proof.
  unfold int_095.
  pose proof (Nat.div_mod (95 * n) 100 ltac:(lia)).
  pose proof (Nat.mod_upper_bound (95 * n) 100 ltac:(lia)). lia.
Qed.

Lemma int_095_le n : int_095 n <= n.
Proof. pose proof (int_095_floor n). lia. Qed.

Lemma p95_index values :
  values <> [] ->
  p95 values = nth (int_095 (length values - 1)) (sorted values) 0%Q.
Proof.
  intros H. unfold p95. destruct values as [|x t]; [congruence|].
  rewrite Nat.min_r by apply int_095_le.
  now rewrite sorted_length.
Qed.

(** The p95 of a non-empty window is one of its durations. *)
Lemma p95_elem values : values <> [] -> p95 values ∈ values.
Proof.
  intros H. rewrite p95_index by assumption.
  apply (elem_of_Permutation_proper _ _ _ (sorted_perm values)).
  apply list_elem_of_In, nth_In.
  rewrite sorted_length. pose proof (int_095_le (length values - 1)).
  destruct values; [congruence|]. simpl in *. lia.
Qed.

End Percentile.

(** The failures of a window, counted with the library's [filter]. *)
Lemma count_fails_filter (l : list (Q * bool)) :
  count_fails l = length (filter (fun o : Q * bool => snd o = false) l).
Proof.
  unfold count_fails. induction l as [|[q ok] l IH]; [reflexivity|].
  rewrite !filter_cons. destruct ok; simpl.
  - destruct (decide (false = true)) as [D|_]; [discriminate|].
    destruct (decide (true = false)) as [D|_]; [discriminate|]. exact IH.
  - destruct (decide (true = true)) as [_|D]; [|congruence].
    destruct (decide (false = false)) as [_|D]; [|congruence].
    simpl. now rewrite IH.
Qed.

(** C2.  In closed state every reported outcome is pushed (the oldest
    sample leaving a full window) and the window re-evaluated: with the
    failure rate the number of failed samples over the length of the window
    (0 when empty) and the p95 latency the element at index
    [floor(0.95 * (len - 1))] of the durations in ascending order (0 when
    empty), the breaker opens, stamped with the clock reading, exactly when
    the failure rate or the p95 latency has reached its threshold, and
    otherwise stays closed.  Twenty successes of 1200 ms against a 1000 ms
    latency threshold end in open with nothing but those successes in the
    window.  An empty window has failure rate 0 and p95 0, so a new breaker
    (closed, empty window) would trip on evaluation only with a threshold at
    or below zero.  With thresholds 0.4 and 1200 ms: one failure in four
    samples leaves the breaker closed and a second failure, two in five,
    opens it at the clock reading of that report; a slow success between two
    fast ones leaves it closed, two slow ones in three open it. *)
Theorem closed_breaker_trips_on_threshold :
  (forall b ms ok w,
     _state b = closed ->
     let b' := fst (report b (ms, ok) w) in
     let window := _outcomes b' in
     let fails := length (filter (fun o : Q * bool => snd o = false) window) in
     let rate :=
       match window with
       | [] => 0%Q
       | _ => (inject_Z (Z.of_nat fails)
               / inject_Z (Z.of_nat (length window)))%Q
       end in
     window =
       (if (_sample_size b <? Z.of_nat (length (_outcomes b ++ [(ms, ok)])))%Z
        then tl (_outcomes b ++ [(ms, ok)])
        else _outcomes b ++ [(ms, ok)]) /\
     _outcomes b' = _outcomes (_push_outcome b ms ok) /\
     window_fail_rate window = rate /\
     (exists ascending : list Q,
        Sorted Qle ascending /\ ascending ≡ₚ map fst window /\
        window_p95 window =
          match window with
          | [] => 0%Q
          | _ => nth ((95 * (length window - 1)) / 100) ascending 0%Q
          end) /\
     ((_max_fail_rate b <= rate)%Q \/
      (_max_p95_ms b <= window_p95 window)%Q ->
      _state b' = open /\ _last_opened_at_ms b' = next_mono w) /\
     (~ ((_max_fail_rate b <= rate)%Q \/
         (_max_p95_ms b <= window_p95 window)%Q) ->
      _state b' = closed /\ _last_opened_at_ms b' = _last_opened_at_ms b) /\
     ((_max_fail_rate b <= window_fail_rate (_outcomes b'))%Q \/
      (_max_p95_ms b <= window_p95 (_outcomes b'))%Q ->
      _state b' = open /\ _last_opened_at_ms b' = next_mono w) /\
     (~ ((_max_fail_rate b <= window_fail_rate (_outcomes b'))%Q \/
         (_max_p95_ms b <= window_p95 (_outcomes b'))%Q) ->
      _state b' = closed /\ _last_opened_at_ms b' = _last_opened_at_ms b)) /\
  (forall capacity rate cooldown nm w,
     (1 <= capacity)%Z ->
     let b' := fst (feed (new_breaker capacity rate cooldown 1000 nm)
                         (repeat (1200%Q, true) 20) w) in
     _state b' = open /\ count_fails (_outcomes b') = 0 /\
     (window_fail_rate (_outcomes b') == 0)%Q /\
     (forall o, o ∈ _outcomes b' -> o = (1200%Q, true))) /\
  (window_fail_rate [] = 0%Q /\ window_p95 [] = 0%Q) /\
  (forall capacity rate cooldown max_p95 nm w,
     let b := new_breaker capacity rate cooldown max_p95 nm in
     _state b = closed /\ _outcomes b = [] /\
     (_state (fst (_evaluate b w)) = open <->
      (rate <= 0)%Q \/ (max_p95 <= 0)%Z)) /\
  (forall cooldown nm w,
     let b := new_breaker 10 (4 # 10) cooldown 1200 nm in
     let three_ok := [(100%Q, true); (100%Q, true); (100%Q, true)] in
     _state (fst (feed b (three_ok ++ [(900%Q, false)]) w)) = closed /\
     _state (fst (feed b (three_ok ++ [(900%Q, false); (900%Q, false)]) w))
       = open /\
     _last_opened_at_ms
       (fst (feed b (three_ok ++ [(900%Q, false); (900%Q, false)]) w))
       = next_mono w /\
     _state (fst (feed b [(100%Q, true); (1300%Q, true); (200%Q, true)] w))
       = closed /\
     _state (fst (feed b [(100%Q, true); (1300%Q, true); (1400%Q, true)] w))
       = open).
Proof.
  split; [|split; [|split; [|split]]].
  - intros b ms ok w Hc b' window fails rate.
    assert (Ew : window = _outcomes (_push_outcome b ms ok)).
    { subst window b'. now rewrite report_outcomes. }
    assert (Er : window_fail_rate window = rate).
    { subst rate fails. unfold window_fail_rate.
      destruct window; [reflexivity|]. now rewrite count_fails_filter. }
    split.
    { rewrite Ew. unfold _push_outcome. now destruct (_ <? _)%Z. }
    split; [exact Ew|]. split; [exact Er|].
    split.
    { exists (sorted (map fst window)).
      split; [apply sorted_ascending|]. split; [apply sorted_perm|].
      unfold window_p95. destruct window as [|o t] eqn:Eo; [reflexivity|].
      rewrite p95_index by discriminate.
      unfold int_095. now rewrite length_map. }
    assert (Rule :
      ((_max_fail_rate b <= window_fail_rate window)%Q \/
       (_max_p95_ms b <= window_p95 window)%Q ->
       _state b' = open /\ _last_opened_at_ms b' = next_mono w) /\
      (~ ((_max_fail_rate b <= window_fail_rate window)%Q \/
          (_max_p95_ms b <= window_p95 window)%Q) ->
       _state b' = closed /\ _last_opened_at_ms b' = _last_opened_at_ms b)).
    { rewrite Ew. subst b'.
      rewrite (report_closed b (ms, ok) w Hc). simpl fst. simpl snd. cbv zeta.
      pose proof (trips_iff (_push_outcome b ms ok)) as T.
      destruct (push_outcome_config b ms ok) as (_ & Fr & _ & Fp & _).
      rewrite Fr, Fp in T.
      destruct (trips (_push_outcome b ms ok)).
      + split; [intros _; now split|].
        intros N. exfalso. apply N. now apply T.
      + split.
        * intros Y. apply T in Y. discriminate.
        * intros _. now rewrite push_outcome_state, push_outcome_last_opened. }
    destruct Rule as [Ropen Rclosed].
    split; [now rewrite <- Er|]. split; [now rewrite <- Er|].
    split; [exact Ropen | exact Rclosed].
  - intros capacity rate cooldown nm w Hcap b'. subst b'.
    change (repeat (1200%Q, true) 20)
      with ((1200%Q, true) :: repeat (1200%Q, true) 19).
    rewrite feed_cons.
    set (b0 := new_breaker capacity rate cooldown 1000 nm).
    assert (Hopen : _state (fst (report b0 (1200%Q, true) w)) = open).
    { rewrite report_closed by reflexivity. simpl fst. simpl snd. cbv zeta.
      assert (P : _push_outcome b0 1200%Q true
                  = set_outcomes b0 [(1200%Q, true)]).
      { unfold _push_outcome. simpl.
        destruct (capacity <? _)%Z eqn:E; [apply Z.ltb_lt in E; lia|reflexivity]. }
      rewrite P. unfold trips. simpl.
      rewrite orb_true_r. reflexivity. }
    set (b1 := fst (report b0 (1200%Q, true) w)) in *.
    set (w1 := snd (report b0 (1200%Q, true) w)).
    destruct (feed_open b1 (repeat (1200%Q, true) 19) w1 Hopen) as [Hs _].
    assert (Hall : forall x, x ∈ _outcomes (fst (feed b1 (repeat (1200%Q, true) 19) w1))
                             -> x = (1200%Q, true)).
    { intros x Hx. apply feed_elems in Hx as [Hx | Hx].
      - subst b1. rewrite report_outcomes in Hx.
        apply push_outcome_elems in Hx as [Hx | ->]; [|reflexivity].
        simpl in Hx. now apply elem_of_nil in Hx.
      - apply list_elem_of_In, repeat_spec in Hx. now subst x. }
    assert (Hok : forall x, x ∈ _outcomes (fst (feed b1 (repeat (1200%Q, true) 19) w1))
                            -> snd x = true).
    { intros x Hx. now rewrite (Hall x Hx). }
    split; [exact Hs|].
    pose proof (count_fails_all_ok _ Hok) as Hz.
    split; [exact Hz|]. split; [now apply fail_rate_no_fails | exact Hall].
  - split; reflexivity.
  - intros capacity rate cooldown max_p95 nm w b.
    split; [reflexivity|]. split; [reflexivity|].
    rewrite evaluate_not_open by (simpl; discriminate).
    pose proof (trips_iff b) as T. simpl in T.
    change (window_p95 []) with 0%Q in T.
    assert (Hz : (inject_Z max_p95 <= 0)%Q <-> (max_p95 <= 0)%Z).
    { change 0%Q with (inject_Z 0). now rewrite <- Zle_Qle. }
    rewrite Hz in T.
    destruct (trips b).
    + split; [intros _; now apply T | reflexivity].
    + split; [discriminate|]. intros Y. apply T in Y. discriminate.
  - intros cooldown nm w. cbv zeta. repeat split; vm_compute; reflexivity.
Qed.

Lemma closed_breaker_trips_on_threshold_witness :
  (_state (fst (report (new_breaker 10 (4 # 10) 15000 1200 "b") (900%Q, false)
                       (failing_world 7 ∅))) = open /\
   _last_opened_at_ms
     (fst (report (new_breaker 10 (4 # 10) 15000 1200 "b") (900%Q, false)
                  (failing_world 7 ∅)))
   = next_mono (failing_world 7 ∅))
  /\ _state (fst (feed (new_breaker 40 (4 # 10) 15000 1000 "b")
                       (repeat (1200%Q, true) 20) (failing_world 7 ∅))) = open.
Proof.
  destruct closed_breaker_trips_on_threshold as (Hrep & Hlat & _).
  split.
  - destruct (Hrep (new_breaker 10 (4 # 10) 15000 1200 "b") 900%Q false
                   (failing_world 7 ∅) eq_refl)
      as (_ & _ & _ & _ & Hopen & _).
    apply Hopen. left. vm_compute. discriminate.
  - apply (Hlat 40%Z (4 # 10)%Q 15000%Z "b" (failing_world 7 ∅)). lia.
Defined.

(** C7, counterexample.  On the window of durations 100 and 1300 the
    specification's index [ceil(0.95 * 2) - 1 = 1] selects 1300, while [p95]
    uses index [int(0.95 * 1) = 0] and returns 100. *)
Lemma p95_not_nearest_rank :
  nearest_rank_index 2 = 1 /\
  p95_nearest_rank [100; 1300]%Q = 1300%Q /\
  p95 [100; 1300]%Q = 100%Q /\
  ~ (p95 [100; 1300] == p95_nearest_rank [100; 1300])%Q.
Proof. repeat split. vm_compute. discriminate. Qed.

(** C7, amended.  For a non-empty window of [len] durations, p95 is the
    element at index [floor(0.95 * (len - 1))] of the durations sorted
    ascending (an index within the list; the sorted list is ascending and a
    rearrangement of the window), and it is 0 for an empty window; the
    failure rate is failures/len, and 0 for an empty window. *)
Theorem p95_floor_rank_and_fail_rate :
  (forall values : list Q,
     values <> [] ->
     let idx := int_095 (length values - 1) in
     p95 values = nth idx (sorted values) 0%Q /\
     100 * idx <= 95 * (length values - 1) < 100 * (idx + 1) /\
     idx < length (sorted values) /\
     Sorted Qle (sorted values) /\
     sorted values ≡ₚ values) /\
  p95 [] = 0%Q /\
  (forall outcomes : list (Q * bool),
     window_p95 outcomes = p95 (map fst outcomes) /\
     (outcomes <> [] ->
      window_fail_rate outcomes =
        (inject_Z (Z.of_nat (count_fails outcomes))
         / inject_Z (Z.of_nat (length outcomes)))%Q)) /\
  window_fail_rate [] = 0%Q.
Proof.
  split; [|split; [reflexivity|split; [|reflexivity]]].
  - intros values H idx. subst idx.
    split; [now apply p95_index|].
    split; [apply int_095_floor|].
    split.
    + rewrite sorted_length. pose proof (int_095_le (length values - 1)).
      destruct values; [congruence|]. simpl in *. lia.
    + split; [apply sorted_ascending | apply sorted_perm].
  - intros outcomes. split; [reflexivity|].
    intros H. destruct outcomes; [congruence | reflexivity].
Qed.

Lemma p95_floor_rank_and_fail_rate_witness :
  p95 [300; 100; 1300; 200]%Q = nth 2 (sorted [300; 100; 1300; 200]%Q) 0%Q
  /\ window_fail_rate [(900%Q, false); (100%Q, true)]
     = (inject_Z 1 / inject_Z 2)%Q.
Proof.
  destruct p95_floor_rank_and_fail_rate as (Hp & _ & Hr & _).
  split.
  - apply (Hp [300; 100; 1300; 200]%Q). discriminate.
  - apply (Hr [(900%Q, false); (100%Q, true)]). discriminate.
Defined.

(** ** Timeout guard *)

(** C8, counterexample.  When the deadline fires first the guard raises
    [TimeoutError] to its caller, and when the wrapped call raises, the
    exception passes through: neither comes back as a returned result. *)
Lemma with_timeout_raises :
  fst (with_timeout (fun w => (@Late Z, w)) 900 "supplier_us-east"
         (failing_world 1 ∅))
    = Raise (TimeoutError "timeout_supplier_us-east") /\
  fst (with_timeout (_try_region "SKU_X" us_east) 900 "supplier_us-east"
         (failing_world 1 ∅))
    = Raise (Exception "502_bad_gateway").
Proof. split; reflexivity. Qed.

(** C8, amended.  The guard hands a value back exactly when the wrapped
    call returned that value in time; when the deadline fires first it
    raises [TimeoutError] with message [timeout_<label>] (as it does for a
    [TimeoutError] of the wrapped call); every other exception of the wrapped
    call is raised to the caller unchanged; the guard never leaves its caller
    pending, never raises when the call returned, and leaves the world as
    the call left it. *)
Theorem with_timeout_returns_or_raises {A : Type} (coro : Sim A) (ms : Z)
    (label : string) (w : World) :
  let r := fst (with_timeout coro ms label w) in
  snd (with_timeout coro ms label w) = snd (coro w) /\
  r <> Late /\
  (forall a, r = Ret a <-> fst (coro w) = Ret a) /\
  (fst (coro w) = Late -> r = Raise (TimeoutError ("timeout_" +:+ label))) /\
  (forall m, fst (coro w) = Raise (TimeoutError m) ->
             r = Raise (TimeoutError ("timeout_" +:+ label))) /\
  (forall e, (forall m, e <> TimeoutError m) ->
             fst (coro w) = Raise e -> r = Raise e) /\
  (forall e, r = Raise e ->
             fst (coro w) = Late \/ exists e', fst (coro w) = Raise e').
Proof.
  unfold with_timeout. destruct (coro w) as [[a | e | ] w']; [|destruct e|];
    simpl; repeat split; intros; subst;
    try congruence; try (left; reflexivity); try (right; eauto; fail).
Qed.

Lemma with_timeout_returns_or_raises_witness :
  fst (with_timeout (_try_region "SKU_X" us_east) 900 "supplier_us-east"
         (failing_world 1 ∅))
    = Raise (Exception "502_bad_gateway").
Proof.
  destruct (with_timeout_returns_or_raises (_try_region "SKU_X" us_east) 900
              "supplier_us-east" (failing_world 1 ∅))
    as (_ & _ & _ & _ & _ & H & _).
  apply H; [discriminate | reflexivity].
Defined.

(** ** Trip threshold over a sequence of outcomes *)

Section TripThreshold.

Lemma count_fails_app (l1 l2 : list (Q * bool)) :
  count_fails (l1 ++ l2) = count_fails l1 + count_fails l2.
Proof. unfold count_fails. now rewrite filter_app, length_app. Qed.

Lemma count_fails_le (l : list (Q * bool)) : count_fails l <= length l.
Proof. unfold count_fails. apply length_filter. Qed.

(** From closed, without a probe in between, the breaker is still closed
    after a sequence that fits the window exactly when no prefix of the
    sequence brings the window to a threshold. *)
Lemma feed_closed_iff l : forall b w,
  _state b = closed ->
  (Z.of_nat (length (_outcomes b) + length l) <= _sample_size b)%Z ->
  _state (fst (feed b l w)) = closed <->
  (forall k, 1 <= k <= length l ->
     trips_on (_max_fail_rate b) (_max_p95_ms b) (_outcomes b ++ take k l) = false).
Proof.
  induction l as [|s rest IH]; intros b w Hc Hcap.
  - simpl. split; [intros _ k Hk; lia | intros _; exact Hc].
  - rewrite feed_cons. simpl in Hcap.
    pose proof (report_closed b s w Hc) as R. cbv zeta in R.
    assert (Ew : _outcomes (_push_outcome b (fst s) (snd s)) = _outcomes b ++ [s]).
    { rewrite push_within_capacity by lia. now destruct s. }
    destruct (push_outcome_config b (fst s) (snd s)) as (Es & Er & _ & Ep & _).
    assert (T : trips (_push_outcome b (fst s) (snd s))
                = trips_on (_max_fail_rate b) (_max_p95_ms b) (_outcomes b ++ take 1 (s :: rest))).
    { unfold trips, trips_on. now rewrite Er, Ep, Ew. }
    destruct (trips (_push_outcome b (fst s) (snd s))) eqn:Et.
    + split.
      * intros H. exfalso.
        destruct (feed_open (fst (report b s w)) rest (snd (report b s w))) as [Ho _].
        { now rewrite R. }
        congruence.
      * intros H. specialize (H 1 ltac:(simpl; lia)). congruence.
    + rewrite R.
      rewrite (IH (_push_outcome b (fst s) (snd s)) (snd (report b s w)));
        [| now rewrite push_outcome_state
         | rewrite Es, Ew, length_app; simpl; lia].
      rewrite Er, Ep, Ew. split.
      * intros H k Hk. destruct k as [|k]; [lia|].
        destruct k as [|k]; [now rewrite <- T|].
        specialize (H (S k) ltac:(simpl in Hk; lia)).
        simpl. now rewrite <- app_assoc in H.
      * intros H k Hk. specialize (H (S k) ltac:(simpl; lia)).
        simpl in H. now rewrite <- app_assoc.
Qed.

(** The state after a sequence fed from closed is closed or open. *)
Lemma feed_closed_or_open l : forall b w,
  _state b = closed ->
  _state (fst (feed b l w)) = closed \/ _state (fst (feed b l w)) = open.
Proof.
  induction l as [|s rest IH]; intros b w Hc; [now left|].
  rewrite feed_cons.
  pose proof (report_closed b s w Hc) as R. cbv zeta in R.
  destruct (trips (_push_outcome b (fst s) (snd s))).
  - right. apply feed_open. now rewrite R.
  - apply IH. now rewrite R, push_outcome_state.
Qed.

(** The rate test against 0.4, in integers. *)
Lemma fail_rate_reaches_04 (window : list (Q * bool)) :
  window <> [] ->
  Qle_bool (4 # 10) (window_fail_rate window) = true <->
  2 * length window <= 5 * count_fails window.
Proof.
  intros H. unfold window_fail_rate. destruct window as [|x t]; [congruence|].
  set (f := count_fails (x :: t)). set (n := length (x :: t)).
  assert (Hn : 0 < n) by (subst n; simpl; lia).
  rewrite Qle_bool_iff.
  assert (Hpos : (0 < inject_Z (Z.of_nat n))%Q).
  { change 0%Q with (inject_Z 0). rewrite <- Zlt_Qlt. lia. }
  split.
  - intros L.
    apply (Qmult_le_compat_r _ _ (inject_Z (Z.of_nat n))) in L;
      [|now apply Qlt_le_weak].
    unfold Qdiv in L. rewrite <- Qmult_assoc in L.
    rewrite (Qmult_comm (/ _)), Qmult_inv_r, Qmult_1_r in L
      by (intros E; rewrite E in Hpos; now apply Qlt_irrefl in Hpos).
    unfold Qle, Qmult, inject_Z in L. simpl in L. lia.
  - intros L. apply Qle_shift_div_l; [exact Hpos|].
    unfold Qle, Qmult, inject_Z. simpl. lia.
Qed.

Lemma p95_below (window : list (Q * bool)) (max_p95 : Q) :
  window <> [] ->
  (forall x, x ∈ window -> (fst x < max_p95)%Q) ->
  Qle_bool max_p95 (window_p95 window) = false.
Proof.
  intros Hne Hall. destruct (Qle_bool _ _) eqn:E; [|reflexivity].
  apply Qle_bool_iff in E. exfalso.
  assert (Hm : map fst window <> []) by (destruct window; [congruence | discriminate]).
  pose proof (p95_elem (map fst window) Hm) as Hin.
  apply list_elem_of_fmap in Hin as (x & Hx & Hxin).
  specialize (Hall x Hxin). unfold window_p95 in E. rewrite Hx in E.
  now apply Qle_not_lt in E.
Qed.

End TripThreshold.

Lemma feed_config l : forall b w,
  let b' := fst (feed b l w) in
  _sample_size b' = _sample_size b /\ _max_fail_rate b' = _max_fail_rate b /\
  _cooldown_ms b' = _cooldown_ms b /\ _max_p95_ms b' = _max_p95_ms b /\
  _name b' = _name b.
Proof.
  induction l as [|s rest IH]; intros b w; [now repeat split|].
  cbv zeta. rewrite feed_cons.
  destruct (IH (fst (report b s w)) (snd (report b s w)))
    as (-> & -> & -> & -> & ->).
  apply report_config.
Qed.

(** C6, counterexample.  Three failures and seven successes, all well
    under the latency threshold, with a failure reported first: the window
    then holds one failure in one sample, the breaker opens at once and is
    open at the end. *)
Lemma three_failures_failure_first_opens :
  let samples := (900%Q, false) :: repeat (100%Q, true) 7
                 ++ [(900%Q, false); (900%Q, false)] in
  length samples = 10 /\ count_fails samples = 3 /\
  _state (fst (feed (new_breaker 10 (4 # 10) 15000 1200 "b") samples
                    (failing_world 1 ∅))) = open.
Proof. vm_compute. repeat split. Qed.

(** C6, amended.  With a failure-rate threshold of 0.4 and capacity 10,
    a fresh breaker fed ten outcomes of which four are failures, in any
    order, ends open.  Fed three failures and seven successes, with every
    duration under the latency threshold, it ends closed exactly when every
    prefix of the sequence has a failure rate below 0.4 (it ends open
    otherwise, for instance whenever one of the first two outcomes is a
    failure). *)
Theorem trip_threshold_by_prefix :
  (forall samples cooldown max_p95 nm w,
     length samples = 10 -> count_fails samples = 4 ->
     _state (fst (feed (new_breaker 10 (4 # 10) cooldown max_p95 nm) samples w))
       = open) /\
  (forall samples cooldown max_p95 nm w,
     length samples = 10 -> count_fails samples = 3 ->
     (forall x, x ∈ samples -> (fst x < inject_Z max_p95)%Q) ->
     let b' := fst (feed (new_breaker 10 (4 # 10) cooldown max_p95 nm) samples w) in
     (_state b' = closed <->
      forall k, 1 <= k <= 10 -> 5 * count_fails (take k samples) < 2 * k) /\
     (_state b' <> closed -> _state b' = open)).
Proof.
  split.
  - intros samples cooldown max_p95 nm w Hlen Hf.
    set (b0 := new_breaker 10 (4 # 10) cooldown max_p95 nm).
    assert (Hne : samples <> []) by (intros ->; discriminate).
    destruct (exists_last Hne) as (init & lst & ->).
    rewrite length_app in Hlen. simpl in Hlen.
    rewrite feed_app.
    set (b1 := fst (feed b0 init w)). set (w1 := snd (feed b0 init w)).
    destruct (feed_closed_or_open init b0 w eq_refl) as [Hc | Ho]; fold b1 in Hc || fold b1 in Ho.
    + rewrite feed_cons. simpl feed.
      rewrite (report_closed b1 lst w1 Hc). cbv zeta.
      assert (Ew : _outcomes (_push_outcome b1 (fst lst) (snd lst)) = init ++ [lst]).
      { destruct (feed_config init b0 w) as (Es & _). fold b1 in Es.
        assert (Eo : _outcomes b1 = init).
        { subst b1. rewrite feed_within_capacity; [reflexivity|]. simpl. lia. }
        rewrite push_within_capacity.
        - rewrite Eo. now destruct lst.
        - rewrite Es, Eo. simpl. lia. }
      assert (Et : trips (_push_outcome b1 (fst lst) (snd lst)) = true).
      { unfold trips. rewrite Ew.
        destruct (push_outcome_config b1 (fst lst) (snd lst)) as (_ & -> & _).
        destruct (feed_config init b0 w) as (_ & Er & _). fold b1 in Er.
        rewrite Er. simpl _max_fail_rate.
        apply orb_true_iff. left. apply fail_rate_reaches_04.
        - now destruct init.
        - rewrite length_app. simpl. lia. }
      now rewrite Et.
    + apply feed_open. exact Ho.
  - intros samples cooldown max_p95 nm w Hlen Hf Hdur b'. subst b'.
    set (b0 := new_breaker 10 (4 # 10) cooldown max_p95 nm).
    split.
    + rewrite (feed_closed_iff samples b0 w eq_refl) by (simpl; lia).
      simpl _outcomes. simpl _max_fail_rate. simpl _max_p95_ms.
      rewrite Hlen.
      assert (Hk : forall k, 1 <= k <= 10 ->
                trips_on (4 # 10) (inject_Z max_p95) (take k samples) = false
                <-> 5 * count_fails (take k samples) < 2 * k).
      { intros k Hk.
        assert (Hl : length (take k samples) = k) by (rewrite length_take; lia).
        assert (Hne : take k samples <> [])
          by (intros E; rewrite E in Hl; simpl in Hl; lia).
        unfold trips_on. rewrite p95_below; trivial.
        - rewrite orb_false_r.
          pose proof (fail_rate_reaches_04 (take k samples) Hne) as R.
          rewrite Hl in R.
          destruct (Qle_bool _ _).
          + split; [discriminate|]. intros L.
            assert (2 * k <= 5 * count_fails (take k samples)) by now apply R.
            lia.
          + split; [|reflexivity]. intros _.
            destruct (le_lt_dec (2 * k) (5 * count_fails (take k samples))) as [L|L];
              [apply R in L; discriminate | exact L].
        - intros x Hx. apply Hdur. now apply (subseteq_take k samples). }
      split; intros H k Hkr; apply (Hk k Hkr), H; exact Hkr.
    + intros Hn. destruct (feed_closed_or_open samples b0 w eq_refl); congruence.
Qed.

Lemma trip_threshold_by_prefix_witness :
  _state (fst (feed (new_breaker 10 (4 # 10) 15000 1200 "b")
                    (repeat (100%Q, true) 6 ++ repeat (900%Q, false) 4)
                    (failing_world 1 ∅))) = open
  /\ _state (fst (feed (new_breaker 10 (4 # 10) 15000 1200 "b")
                    ([(100%Q, true); (100%Q, true); (900%Q, false);
                      (100%Q, true); (100%Q, true); (900%Q, false);
                      (100%Q, true); (100%Q, true); (900%Q, false);
                      (100%Q, true)])
                    (failing_world 1 ∅))) = closed.
Proof.
  destruct trip_threshold_by_prefix as (Hfour & Hthree).
  split.
  - apply Hfour; reflexivity.
  - edestruct (Hthree [(100%Q, true); (100%Q, true); (900%Q, false);
                       (100%Q, true); (100%Q, true); (900%Q, false);
                       (100%Q, true); (100%Q, true); (900%Q, false);
                       (100%Q, true)]
                      15000%Z 1200%Z "b" (failing_world 1 ∅))
      as [[_ Hclosed] _]; [reflexivity | reflexivity | |].
    + intros x Hx.
      repeat (apply elem_of_cons in Hx as [-> | Hx]; [reflexivity|]).
      now apply elem_of_nil in Hx.
    + apply Hclosed. intros k Hk.
      do 11 (destruct k as [|k]; [vm_compute; lia|]). lia.
Defined.

(** ** What the breaker touches in the world *)

Section Quiet.

Lemma quiet_refl w : quiet w w.
Proof. now repeat split. Qed.

Lemma quiet_trans w1 w2 w3 : quiet w1 w2 -> quiet w2 w3 -> quiet w1 w3.
Proof.
  unfold quiet. intros (? & ? & ? & ? & ? & ? & ? & ? & ?)
                       (? & ? & ? & ? & ? & ? & ? & ? & ?).
  repeat split; congruence.
Qed.

Lemma emit_quiet m w : quiet w (snd (emit m w)).
Proof. now repeat split. Qed.

Lemma now_ms_monotonic_quiet w : quiet w (snd (now_ms_monotonic w)).
Proof. now repeat split. Qed.

Lemma can_probe_quiet b w : quiet w (snd (can_probe b w)).
Proof.
  unfold can_probe. destruct (negb _); [apply quiet_refl | now repeat split].
Qed.

Lemma enter_probe_quiet b w : quiet w (snd (enter_probe b w)).
Proof.
  unfold enter_probe.
  pose proof (can_probe_quiet b w) as Q.
  destruct (can_probe b w) as [[] w1]; simpl in *; [|exact Q].
  eapply quiet_trans; [exact Q | apply emit_quiet].
Qed.

Lemma evaluate_quiet b w : quiet w (snd (_evaluate b w)).
Proof.
  unfold _evaluate. simpl. destruct (_ && _); now repeat split.
Qed.

Lemma success_quiet b ms w : quiet w (snd (success b ms w)).
Proof.
  unfold success. destruct (state_eqb _ probe); simpl.
  - eapply quiet_trans; [|apply evaluate_quiet]. now repeat split.
  - apply evaluate_quiet.
Qed.

Lemma failure_quiet b ms w : quiet w (snd (failure b ms w)).
Proof. apply evaluate_quiet. Qed.

Lemma open_and_cannot_probe_quiet b w :
  quiet w (snd (open_and_cannot_probe b w)).
Proof.
  unfold open_and_cannot_probe. destruct (state_eqb _ _); [|apply quiet_refl].
  pose proof (can_probe_quiet b w). now destruct (can_probe b w).
Qed.

Lemma probe_if_due_quiet b w : quiet w (snd (probe_if_due b w)).
Proof.
  unfold probe_if_due.
  pose proof (can_probe_quiet b w) as Q.
  destruct (can_probe b w) as [[] w1]; simpl in *; [|exact Q].
  eapply quiet_trans; [exact Q | apply enter_probe_quiet].
Qed.

(** The skip test: open with the cooldown still running. *)
Lemma open_and_cannot_probe_true b w :
  fst (open_and_cannot_probe b w) = true <->
  _state b = open /\ (next_mono w - _last_opened_at_ms b < _cooldown_ms b)%Q.
Proof.
  unfold open_and_cannot_probe, state.
  destruct (state_eqb (_state b) open) eqn:E.
  - apply state_eqb_eq in E.
    pose proof (can_probe_open b w E) as C.
    destruct (can_probe b w) as [ok w1]. simpl in *. subst ok.
    destruct (Qle_bool _ _) eqn:L; simpl.
    + split; [discriminate|]. intros [_ H]. apply Qle_bool_iff in L.
      now apply Qlt_not_le in H.
    + split; [|reflexivity]. intros _. split; [exact E|].
      apply Qnot_le_lt. intros H. apply Qle_bool_iff in H. congruence.
  - apply state_eqb_neq in E. simpl. split; [discriminate | now intros [? _]].
Qed.

End Quiet.

(** ** The supplier chain *)

Section Supplier.

Implicit Types (self : SupplierClient) (sku : string) (region : Region)
  (reasons : list string) (w : World).

(** A region whose breaker is open with the cooldown running is skipped:
    no call, the breaker untouched, one tag. *)
Lemma attempt_skipped self sku reasons region w :
  fst (open_and_cannot_probe (_breakers self region) w) = true ->
  exists w',
    attempt self sku reasons region w
      = (Ret (None, self, reasons ++ ["supplier_open"]), w') /\
    quiet w w'.
Proof.
  intros H. unfold attempt, bind, lift.
  pose proof (open_and_cannot_probe_quiet (_breakers self region) w) as Q.
  destruct (open_and_cannot_probe (_breakers self region) w) as [skip w0].
  simpl in H, Q. subst skip. simpl.
  eexists. split; [reflexivity|].
  eapply quiet_trans; [exact Q | apply emit_quiet].
Qed.

(** Otherwise the region is called once, and the attempt returns: the
    price when the call returned one in time, and otherwise nothing, with
    one error tag, the cache and the wall clock untouched and the other
    region's breaker as it was. *)
Lemma attempt_called self sku reasons region w :
  fst (open_and_cannot_probe (_breakers self region) w) = false ->
  exists self' w',
    match supplier_api w (length (supplier_calls w)) sku region with
    | Returned c =>
        attempt self sku reasons region w
          = (Ret (Some {| cents := c;
                          is_degraded := (0 <? length reasons)%nat;
                          reasons := reasons;
                          freshness := None |}, self', reasons), w')
    | _ =>
        attempt self sku reasons region w
          = (Ret (None, self',
                  reasons ++ ["supplier_error_" +:+ region_str region]), w') /\
        price_cache w' = price_cache w /\ ticks_wall w' = ticks_wall w
    end /\
    supplier_calls w' = supplier_calls w ++ [(sku, region)] /\
    supplier_api w' = supplier_api w /\
    clock_wall w' = clock_wall w /\
    (forall r, r <> region -> _breakers self' r = _breakers self r).
Proof.
  intros H. unfold attempt, bind, lift.
  pose proof (open_and_cannot_probe_quiet (_breakers self region) w) as Q0.
  destruct (open_and_cannot_probe (_breakers self region) w) as [skip w0].
  simpl in H, Q0. subst skip.
  pose proof (probe_if_due_quiet (_breakers self region) w0) as Q1.
  destruct (probe_if_due (_breakers self region) w0) as [brk w1].
  simpl in Q1.
  pose proof (quiet_trans _ _ _ Q0 Q1) as Q.
  destruct Q as (Qm & Qw & Qtw & Qs & Qsc & Qa & Qac & Ql & Qc).
  unfold try_except, with_timeout, _try_region, bind, lift,
    fetch_supplier_price. simpl.
  rewrite Qs, Qsc.
  assert (Hother : forall b r, r <> region ->
            _breakers (store_breaker self region b) r = _breakers self r).
  { intros b r Hr. simpl. destruct r, region; simpl; congruence. }
  destruct (supplier_api w (length (supplier_calls w)) sku region)
    as [c | e | ]; simpl.
  - match goal with
    | |- context [success ?b ?d ?x] =>
        pose proof (success_quiet b d x) as Qx;
        destruct (success b d x) as [brk1 w2]
    end.
    simpl in Qx. destruct Qx as (_ & Qw2 & _ & Qs2 & Qsc2 & _).
    eexists _, _. split; [reflexivity|]. simpl.
    repeat split; [now rewrite Qsc2 | now rewrite Qs2 | now rewrite Qw2, Qw
                  | apply Hother].
  - destruct e; simpl;
      match goal with
      | |- context [failure ?b ?d ?x] =>
          pose proof (failure_quiet b d x) as Qx;
          destruct (failure b d x) as [brk1 w2]
      end;
      simpl in Qx; destruct Qx as (_ & Qw2 & Qtw2 & Qs2 & Qsc2 & _ & _ & _ & Qc2);
      (eexists _, _; split; [split; [reflexivity|]|]; simpl;
       repeat split; [ now rewrite Qc2, Qc | now rewrite Qtw2, Qtw
                     | now rewrite Qsc2 | now rewrite Qs2 | now rewrite Qw2, Qw
                     | apply Hother ]).
  - match goal with
    | |- context [failure ?b ?d ?x] =>
        pose proof (failure_quiet b d x) as Qx;
        destruct (failure b d x) as [brk1 w2]
    end.
    simpl in Qx. destruct Qx as (_ & Qw2 & Qtw2 & Qs2 & Qsc2 & _ & _ & _ & Qc2).
    eexists _, _. split; [split; [reflexivity|]|]; simpl;
    repeat split; [ now rewrite Qc2, Qc | now rewrite Qtw2, Qtw
                  | now rewrite Qsc2 | now rewrite Qs2 | now rewrite Qw2, Qw
                  | apply Hother ].
Qed.


(** Every attempt returns; it leaves the services as they were, and when
    it yields no price it leaves the cache alone and adds exactly one tag. *)
Lemma attempt_returns self sku reasons region w :
  exists p self' reasons' w',
    attempt self sku reasons region w = (Ret (p, self', reasons'), w') /\
    supplier_api w' = supplier_api w /\
    match p with
    | Some r => exists n, supplier_api w n sku region = Returned (cents r)
    | None =>
        price_cache w' = price_cache w /\
        (reasons' = reasons ++ ["supplier_open"] \/
         reasons' = reasons ++ ["supplier_error_" +:+ region_str region])
    end.
Proof.
  destruct (fst (open_and_cannot_probe (_breakers self region) w)) eqn:S.
  - destruct (attempt_skipped self sku reasons region w S) as (w' & E & Q).
    destruct Q as (_ & _ & _ & Qs & _ & _ & _ & _ & Qc).
    exists None, self, (reasons ++ ["supplier_open"]), w'. auto.
  - destruct (attempt_called self sku reasons region w S)
      as (self' & w' & M & _ & Qs & _).
    destruct (supplier_api w (length (supplier_calls w)) sku region) eqn:R.
    + eexists _, _, _, _. split; [exact M|]. split; [exact Qs|].
      simpl. eauto.
    + destruct M as (E & Qc & _). eexists _, _, _, _. eauto.
    + destruct M as (E & Qc & _). eexists _, _, _, _. eauto.
Qed.

End Supplier.

(** C1, counterexample.  Both regions fail and the cache has no entry
    for the SKU, so all three steps before the baseline have failed; the
    reasons are the two region tags and the terminal tag, three in all: the
    cache miss has left no tag. *)
Lemma get_price_cache_miss_leaves_no_tag :
  let run := get_price new_supplier_client "SKU_X" us_east (failing_world 1 ∅) in
  supplier_calls (snd run) = [("SKU_X", us_east); ("SKU_X", us_west)] /\
  price_cache (snd run) !! "SKU_X" = None /\
  returned_price run =
    Some {| cents := 250; is_degraded := true;
            reasons := ["supplier_error_us-east"; "supplier_error_us-west";
                        "used_baseline"];
            freshness := None |} /\
  (forall r, returned_price run = Some r -> length (reasons r) <> 3 + 1).
Proof.
  vm_compute. repeat split. intros r [= <-]. discriminate.
Qed.

(** C1, amended.  [get_price] always returns a [PriceResult]: no
    exception reaches its caller and it is never left pending.  When no
    region call returns a price (each one fails, times out or is skipped on
    an open breaker) and the cache has no entry for the SKU, the result is
    the baseline estimate, degraded, without freshness, and its reasons are
    one tag for the primary region, one for the mirror, and the terminal tag
    [used_baseline]; the cache miss adds no tag. *)
Theorem get_price_total_and_baseline :
  (forall self sku preferred w,
     exists r self' w', get_price self sku preferred w = (Ret (r, self'), w')) /\
  (forall self sku preferred w,
     (forall n s region c, supplier_api w n s region <> Returned c) ->
     price_cache w !! sku = None ->
     exists t1 t2 self' w',
       get_price self sku preferred w
         = (Ret ({| cents := baseline_estimate_cents sku;
                    is_degraded := true;
                    reasons := [t1; t2; "used_baseline"];
                    freshness := None |}, self'), w') /\
       (t1 = "supplier_open" \/
        t1 = "supplier_error_" +:+ region_str preferred) /\
       (t2 = "supplier_open" \/
        t2 = "supplier_error_" +:+ region_str (mirror_of preferred))).
Proof.
  split.
  - intros self sku preferred w. unfold get_price, bind.
    destruct (attempt_returns self sku [] preferred w)
      as (p1 & self1 & reasons1 & w1 & E1 & _). rewrite E1.
    destruct p1 as [r1|]; [eexists _, _, _; reflexivity|].
    destruct (attempt_returns self1 sku reasons1
                (if region_eqb preferred us_east then us_west else us_east) w1)
      as (p2 & self2 & reasons2 & w2 & E2 & _). rewrite E2.
    destruct p2 as [r2|]; [eexists _, _, _; reflexivity|].
    unfold lift, cache_get. simpl.
    destruct (price_cache w2 !! sku); simpl; eexists _, _, _; reflexivity.
  - intros self sku preferred w Hfail Hmiss. unfold get_price, bind.
    destruct (attempt_returns self sku [] preferred w)
      as (p1 & self1 & reasons1 & w1 & E1 & A1 & P1). rewrite E1.
    destruct p1 as [r1|]; [destruct P1 as (n & P1); now apply Hfail in P1|].
    destruct P1 as (C1 & T1).
    destruct (attempt_returns self1 sku reasons1
                (if region_eqb preferred us_east then us_west else us_east) w1)
      as (p2 & self2 & reasons2 & w2 & E2 & A2 & P2). rewrite E2.
    destruct p2 as [r2|];
      [destruct P2 as (n & P2); rewrite A1 in P2; now apply Hfail in P2|].
    destruct P2 as (C2 & T2).
    unfold lift, cache_get. simpl. rewrite C2, C1, Hmiss. simpl.
    unfold mirror_of.
    destruct T1 as [-> | ->], T2 as [-> | ->]; simpl;
      eexists _, _, _, _; (split; [reflexivity|]); auto.
Qed.

Lemma get_price_total_and_baseline_witness :
  exists t1 t2 self' w',
    get_price new_supplier_client "SKU_STEAK" us_west (failing_world 1 ∅)
      = (Ret ({| cents := baseline_estimate_cents "SKU_STEAK";
                 is_degraded := true;
                 reasons := [t1; t2; "used_baseline"];
                 freshness := None |}, self'), w') /\
    (t1 = "supplier_open" \/ t1 = "supplier_error_" +:+ region_str us_west) /\
    (t2 = "supplier_open" \/
     t2 = "supplier_error_" +:+ region_str (mirror_of us_west)).
Proof.
  destruct get_price_total_and_baseline as (_ & H).
  apply (H new_supplier_client "SKU_STEAK" us_west (failing_world 1 ∅)).
  - intros n s region c. discriminate.
  - reflexivity.
Defined.

(** ** Freshness label *)

Section Freshness.

Lemma Qfloor_between (q : Q) (z : Z) :
  (inject_Z z <= q)%Q -> (q < inject_Z (z + 1))%Q -> Qfloor q = z.
Proof.
  intros Hlo Hhi.
  pose proof (Qfloor_le q) as Fl. pose proof (Qlt_floor q) as Fh.
  assert (z < Qfloor q + 1)%Z
    by (rewrite Zlt_Qlt; eapply Qle_lt_trans; eassumption).
  assert (Qfloor q < z + 1)%Z
    by (rewrite Zlt_Qlt; eapply Qle_lt_trans; eassumption).
  lia.
Qed.

Lemma floordiv_between (a b : Q) (z : Z) :
  (0 < b)%Q ->
  (inject_Z z * b <= a)%Q -> (a < inject_Z (z + 1) * b)%Q ->
  floordiv a b = z.
Proof.
  intros Hb Hlo Hhi. unfold floordiv. apply Qfloor_between.
  - now apply Qle_shift_div_l.
  - now apply Qlt_shift_div_r.
Qed.

(** An entry between 30 and 31 minutes old is labelled "30m old". *)
Lemma freshness_label_30m (ts : Q) (w : World) :
  (inject_Z 1800000 <= clock_wall w (ticks_wall w) - ts)%Q ->
  (clock_wall w (ticks_wall w) - ts < inject_Z 1860000)%Q ->
  fst (freshness_label ts w) = "30m old".
Proof.
  intros Hlo Hhi. unfold freshness_label, now_ms_wall. cbv beta iota zeta.
  change (1000 * 60 * 60)%Z with 3600000%Z.
  change (1000 * 60)%Z with 60000%Z. cbn [fst].
  set (age := (clock_wall w (ticks_wall w) - ts)%Q) in *.
  assert (Hh : floordiv age (inject_Z 3600000) = 0%Z).
  { apply floordiv_between; [reflexivity| |].
    - eapply Qle_trans; [|exact Hlo]. discriminate.
    - eapply Qlt_trans; [exact Hhi|]. reflexivity. }
  rewrite Hh. cbn [Z.ltb Z.compare].
  assert (Hm : floordiv (pymod age (inject_Z 3600000)) (inject_Z 60000) = 30%Z).
  { unfold pymod. rewrite Hh.
    assert (E : (age - inject_Z 3600000 * inject_Z 0 == age)%Q) by ring.
    apply floordiv_between; [reflexivity| |]; rewrite E.
    - eapply Qle_trans; [|exact Hlo]. discriminate.
    - eapply Qlt_le_trans; [exact Hhi|]. discriminate. }
  rewrite Hm. reflexivity.
Qed.

End Freshness.

(** C5, counterexample.  The scenario as the specification sets it up:
    us-west open with the cooldown running, us-east closed, 199 cents cached
    for X thirty minutes ago, the mirror call failing.  Only us-east is
    called, and the result is 199, degraded, "30m old"; but the tag of the
    failed mirror call names the region: [supplier_error_us-east], not
    [supplier_error_mirror]. *)
Lemma west_open_scenario_names_region :
  let run := get_price west_open_client "X" us_west
               (failing_world 1 cache_x_199) in
  _state (_breakers west_open_client us_west) = open /\
  _state (_breakers west_open_client us_east) = closed /\
  supplier_calls (snd run) = [("X", us_east)] /\
  returned_price run =
    Some {| cents := 199; is_degraded := true;
            reasons := ["supplier_open"; "supplier_error_us-east"; "used_cache"];
            freshness := Some "30m old" |} /\
  returned_price run <>
    Some {| cents := 199; is_degraded := true;
            reasons := ["supplier_open"; "supplier_error_mirror"; "used_cache"];
            freshness := Some "30m old" |}.
Proof. vm_compute. repeat split. discriminate. Qed.

(** C5, amended.  With the us-west breaker open and its cooldown not
    elapsed, the us-east breaker closed, and 199 cents cached for the SKU
    between 30 and 31 minutes ago, [get_price] preferring us-west makes no
    call to us-west and one call to us-east; when that call fails or times
    out it returns 199, degraded, with reasons [supplier_open],
    [supplier_error_us-east], [used_cache] in that order and freshness
    "30m old".  The us-west breaker is left as it was. *)
Theorem west_open_falls_back_to_cache (self : SupplierClient) (sku : string)
    (ts : Q) (w : World) :
  _state (_breakers self us_west) = open ->
  (next_mono w - _last_opened_at_ms (_breakers self us_west)
   < _cooldown_ms (_breakers self us_west))%Q ->
  _state (_breakers self us_east) = closed ->
  price_cache w !! sku = Some {| entry_cents := 199; entry_ts := ts |} ->
  (inject_Z 1800000 <= clock_wall w (ticks_wall w) - ts)%Q ->
  (clock_wall w (ticks_wall w) - ts < inject_Z 1860000)%Q ->
  (forall c, supplier_api w (length (supplier_calls w)) sku us_east <> Returned c) ->
  exists self' w',
    get_price self sku us_west w
      = (Ret ({| cents := 199; is_degraded := true;
                 reasons := ["supplier_open"; "supplier_error_us-east";
                             "used_cache"];
                 freshness := Some "30m old" |}, self'), w') /\
    supplier_calls w' = supplier_calls w ++ [(sku, us_east)] /\
    _breakers self' us_west = _breakers self us_west.
Proof.
  intros Ho Hcool Hc Hcache Hlo Hhi Hfail.
  unfold get_price, bind.
  destruct (attempt_skipped self sku [] us_west w) as (w1 & E1 & Q1).
  { apply open_and_cannot_probe_true. now split. }
  rewrite E1. simpl region_eqb. cbv iota.
  destruct Q1 as (_ & Qw & Qtw & Qs & Qsc & _ & _ & _ & Qc).
  destruct (attempt_called self sku ([] ++ ["supplier_open"]) us_east w1)
    as (self2 & w2 & M & Csc & _ & Cw & Cb).
  { destruct (fst (open_and_cannot_probe (_breakers self us_east) w1)) eqn:S;
      [|reflexivity].
    apply open_and_cannot_probe_true in S as [S _]. congruence. }
  rewrite Qs, Qsc in M.
  assert (E2 : attempt self sku ([] ++ ["supplier_open"]) us_east w1
               = (Ret (None, self2,
                       ([] ++ ["supplier_open"]) ++ ["supplier_error_us-east"]), w2)
               /\ price_cache w2 = price_cache w1 /\ ticks_wall w2 = ticks_wall w1).
  { destruct (supplier_api w (length (supplier_calls w)) sku us_east) eqn:R;
      [now destruct (Hfail a) | exact M | exact M]. }
  destruct E2 as (E2 & Cc & Ctw). rewrite E2.
  unfold lift, cache_get. cbn [fst snd]. rewrite Cc, Qc, Hcache.
  cbn [entry_ts entry_cents].
  pose proof (freshness_label_30m ts w2) as F.
  rewrite Cw, Ctw, Qw, Qtw in F. specialize (F Hlo Hhi).
  assert (Sc : supplier_calls (snd (freshness_label ts w2)) = supplier_calls w2)
    by reflexivity.
  destruct (freshness_label ts w2) as [label w3]. simpl in F, Sc. subst label.
  simpl.
  eexists _, _. split; [reflexivity|]. simpl.
  split.
  - now rewrite Sc, Csc, Qsc.
  - apply Cb. discriminate.
Qed.

Lemma west_open_falls_back_to_cache_witness :
  exists self' w',
    get_price west_open_client "X" us_west (failing_world 1 cache_x_199)
      = (Ret ({| cents := 199; is_degraded := true;
                 reasons := ["supplier_open"; "supplier_error_us-east";
                             "used_cache"];
                 freshness := Some "30m old" |}, self'), w') /\
    supplier_calls w'
      = supplier_calls (failing_world 1 cache_x_199) ++ [("X", us_east)] /\
    _breakers self' us_west = _breakers west_open_client us_west.
Proof.
  apply (west_open_falls_back_to_cache west_open_client "X"
           (inject_Z (- (1000 * 60 * 30))) (failing_world 1 cache_x_199)).
  - reflexivity.
  - reflexivity.
  - reflexivity.
  - reflexivity.
  - vm_compute. discriminate.
  - reflexivity.
  - intros c. discriminate.
Defined.

(** ** The allergen chain *)

Section Allergens.

Lemma insert_str_perm x l : insert_str x l ≡ₚ x :: l.
Proof.
  induction l as [|y t IH]; simpl; [reflexivity|].
  destruct (String.leb x y); [reflexivity|].
  rewrite IH. apply perm_swap.
Qed.

Lemma sorted_str_perm l : sorted_str l ≡ₚ l.
Proof.
  induction l as [|x t IH]; simpl; [reflexivity|].
  now rewrite insert_str_perm, IH.
Qed.

Lemma insert_str_hd x l a :
  HdRel str_le a l -> str_le a x -> HdRel str_le a (insert_str x l).
Proof.
  intros H Hax. destruct l as [|y t]; simpl; [now constructor|].
  destruct (String.leb x y); constructor; trivial. now inversion H.
Qed.

Lemma insert_str_ascending x l :
  Sorted str_le l -> Sorted str_le (insert_str x l).
Proof.
  induction 1 as [|y t Hs IH Hd]; simpl; [repeat constructor|].
  destruct (String.leb x y) eqn:E.
  - constructor; [now constructor|]. now constructor.
  - constructor; [exact IH|]. apply insert_str_hd; [exact Hd|].
    destruct (String.leb_total x y) as [L | L]; [congruence | exact L].
Qed.

Lemma sorted_str_ascending l : Sorted str_le (sorted_str l).
Proof.
  induction l; simpl; [constructor | now apply insert_str_ascending].
Qed.

(** [sorted(set(l))] is ascending, without duplicates, and has the
    elements of [l]. *)
Lemma sorted_set_spec l :
  Sorted str_le (sorted_set l) /\ NoDup (sorted_set l) /\
  (forall x, x ∈ sorted_set l <-> x ∈ l).
Proof.
  unfold sorted_set. split; [apply sorted_str_ascending|]. split.
  - rewrite sorted_str_perm. apply NoDup_remove_dups.
  - intros x. rewrite sorted_str_perm. apply elem_of_remove_dups.
Qed.

(** The completion's answer, parsed. *)
Lemma llm_items_value :
  parse_llm_items "gluten, dairy, nuts, soy" = ["gluten"; "dairy"; "nuts"; "soy"].
Proof. reflexivity. Qed.

(** When the primary step does not hand back the third party's answer,
    it goes on to the fallbacks with exactly one tag and without having
    asked the completion. *)
Lemma allergen_primary_unavailable (self : AllergenClient) (recipe : Recipe) w :
  fst (open_and_cannot_probe (_breaker self) w) = true \/
  (forall its, allergen_api w (length (allergen_calls w)) (id recipe)
                 (ingredients recipe) <> Returned its) ->
  exists self' tag w',
    allergen_primary self recipe w = (Ret (inr (self', [tag])), w') /\
    llm_calls w' = llm_calls w /\
    (tag = "allergen_open" \/ tag = "allergen_timeout" \/
     tag = "allergen_invalid_json").
Proof.
  intros H. unfold allergen_primary, bind, lift.
  pose proof (open_and_cannot_probe_quiet (_breaker self) w) as Q0.
  destruct (open_and_cannot_probe (_breaker self) w) as [[] w0]; simpl in *.
  - eexists _, _, _. split; [reflexivity|]. split; [apply Q0 | now left].
  - destruct H as [H | H]; [discriminate|].
    pose proof (probe_if_due_quiet (_breaker self) w0) as Q1.
    destruct (probe_if_due (_breaker self) w0) as [brk w1]. simpl in Q1.
    pose proof (quiet_trans _ _ _ Q0 Q1) as Q.
    destruct Q as (_ & _ & _ & _ & _ & Qa & Qac & Ql & _).
    unfold try_except, with_timeout, fetch_allergens. simpl.
    rewrite Qa, Qac.
    destruct (allergen_api w (length (allergen_calls w)) (id recipe)
                (ingredients recipe)) as [its | e | ];
      [now destruct (H its) | destruct e |]; simpl;
      match goal with
      | |- context [failure ?b ?d ?x] =>
          pose proof (failure_quiet b d x) as Qx;
          destruct (failure b d x) as [brk1 w2]
      end;
      simpl in Qx; destruct Qx as (_ & _ & _ & _ & _ & _ & _ & Ql2 & _);
      (eexists _, _, _; split; [reflexivity|]; simpl; split;
       [ now rewrite Ql2
       | right;
         first [ left; reflexivity
               | right; reflexivity
               | match goal with
                 | |- context [contains ?a ?b] =>
                     destruct (contains a b); [left | right]; reflexivity
                 end ] ]).
Qed.

End Allergens.

(** C9.  Whenever the primary third-party call is skipped on an open
    breaker, fails or times out, [allergens_for] returns, having asked the
    conservative completion once; the result is degraded, its reasons are
    the primary step's tag followed by the tags of both fallback steps, and
    its items are ascending, without duplicates, and are exactly the
    lower-cased local tags together with the items of the completion's
    answer: the union of the two, neither replacing the other. *)
Theorem allergen_fallback_is_sorted_union (self : AllergenClient)
    (recipe : Recipe) (w : World) :
  fst (open_and_cannot_probe (_breaker self) w) = true \/
  (forall its, allergen_api w (length (allergen_calls w)) (id recipe)
                 (ingredients recipe) <> Returned its) ->
  exists r self' tag w',
    allergens_for self recipe w = (Ret (r, self'), w') /\
    llm_calls w' = llm_calls w ++ [allergen_prompt recipe] /\
    AllergenResult.is_degraded r = true /\
    AllergenResult.reasons r
      = [tag; "allergen_fallback_local_tags"; "allergen_fallback_llm"] /\
    (tag = "allergen_open" \/ tag = "allergen_timeout" \/
     tag = "allergen_invalid_json") /\
    Sorted str_le (AllergenResult.items r) /\
    NoDup (AllergenResult.items r) /\
    (forall x, x ∈ AllergenResult.items r <->
               x ∈ map lower (allergen_tags recipe) \/
               x ∈ ["gluten"; "dairy"; "nuts"; "soy"]).
Proof.
  intros H. unfold allergens_for, bind.
  destruct (allergen_primary_unavailable self recipe w H)
    as (self1 & tag & w1 & E & Ql & T).
  rewrite E. unfold llm_complete, ret. simpl.
  eexists _, _, _, _. split; [reflexivity|]. simpl.
  split; [now rewrite Ql|]. split; [reflexivity|]. split; [reflexivity|].
  split; [exact T|].
  set (local := sorted_set (map lower (allergen_tags recipe))).
  destruct (sorted_set_spec (local ++ parse_llm_items "gluten, dairy, nuts, soy"))
    as (Hs & Hn & Hm).
  split; [exact Hs|]. split; [exact Hn|].
  intros x. rewrite Hm, elem_of_app, llm_items_value.
  subst local. destruct (sorted_set_spec (map lower (allergen_tags recipe)))
    as (_ & _ & Hl).
  now rewrite Hl.
Qed.

Lemma allergen_fallback_is_sorted_union_witness :
  exists r self' tag w',
    allergens_for new_allergen_client
      {| id := "RCP_BOLOGNESE"; name := "Bolognese";
         ingredients := ["pasta"; "tomato"; "parmesan cheese"];
         allergen_tags := ["Dairy"; "sesame"] |}
      (failing_world 1 ∅) = (Ret (r, self'), w') /\
    AllergenResult.is_degraded r = true /\
    AllergenResult.reasons r
      = [tag; "allergen_fallback_local_tags"; "allergen_fallback_llm"] /\
    (forall x, x ∈ AllergenResult.items r <->
               x ∈ ["dairy"; "sesame"] \/
               x ∈ ["gluten"; "dairy"; "nuts"; "soy"]).
Proof.
  destruct (allergen_fallback_is_sorted_union new_allergen_client
              {| id := "RCP_BOLOGNESE"; name := "Bolognese";
                 ingredients := ["pasta"; "tomato"; "parmesan cheese"];
                 allergen_tags := ["Dairy"; "sesame"] |}
              (failing_world 1 ∅))
    as (r & self' & tag & w' & E & _ & D & R & _ & _ & _ & M).
  - right. intros its. discriminate.
  - exists r, self', tag, w'. repeat split; try assumption; apply M.
Defined.

(** * Further properties of the code *)

(** ** The rolling window *)

Section Window.

Implicit Types (b : CircuitBreaker) (w : World).

Lemma push_outcome_drop b ms ok :
  length (_outcomes b) <= capacity b ->
  _outcomes (_push_outcome b ms ok)
  = drop (length (_outcomes b ++ [(ms, ok)]) - capacity b)
         (_outcomes b ++ [(ms, ok)]).
Proof.
  unfold capacity, _push_outcome. intros H.
  rewrite length_app. simpl length.
  destruct (_ <? _)%Z eqn:E; simpl.
  - apply Z.ltb_lt in E.
    replace (length (_outcomes b) + 1 - Z.to_nat (_sample_size b)) with 1 by lia.
    now destruct (_outcomes b ++ [(ms, ok)]).
  - apply Z.ltb_ge in E.
    replace (length (_outcomes b) + 1 - Z.to_nat (_sample_size b)) with 0 by lia.
    reflexivity.
Qed.

Lemma feed_snoc b l s w :
  fst (feed b (l ++ [s]) w)
  = fst (report (fst (feed b l w)) s (snd (feed b l w))).
Proof. rewrite feed_app. simpl. now destruct (report _ s _). Qed.

(** X1.  The window is a bounded first-in first-out buffer: after any
    sequence of reported outcomes it holds the most recent [capacity]
    samples of everything pushed so far, oldest first, whatever the state
    of the breaker; in particular it never exceeds the capacity, after
    [capacity + 1] pushes the oldest sample is gone, and with a capacity of
    zero or less it stays empty. *)
Theorem window_keeps_most_recent_samples b l w :
  length (_outcomes b) <= capacity b ->
  let all := _outcomes b ++ l in
  let window := _outcomes (fst (feed b l w)) in
  window = drop (length all - capacity b) all /\
  length window = Nat.min (length all) (capacity b).
Proof.
  intros H all window. subst all window.
  assert (G : _outcomes (fst (feed b l w))
              = drop (length (_outcomes b ++ l) - capacity b) (_outcomes b ++ l)).
  { induction l as [|s l IH] using rev_ind.
    - simpl. rewrite app_nil_r.
      replace (length (_outcomes b) - capacity b) with 0 by lia. reflexivity.
    - rewrite feed_snoc, report_outcomes.
      set (b1 := fst (feed b l w)) in *.
      assert (Hcap : capacity b1 = capacity b).
      { unfold capacity. subst b1. now destruct (feed_config l b w) as (-> & _). }
      rewrite push_outcome_drop.
      + rewrite Hcap, IH. destruct s as [ms ok]. simpl fst. simpl snd.
        rewrite <- drop_app_le by (rewrite length_app; lia).
        rewrite drop_drop, <- app_assoc. f_equal.
        rewrite !length_app, length_drop, !length_app. simpl. lia.
      + rewrite Hcap, IH, length_drop. lia. }
  split; [exact G|]. rewrite G, length_drop. lia.
Qed.

Lemma window_keeps_most_recent_samples_witness :
  _outcomes (fst (feed (new_breaker 3 (4 # 10) 15000 1200 "b")
                       [(1%Q, true); (2%Q, true); (3%Q, true); (4%Q, true)]
                       (failing_world 1 ∅)))
  = [(2%Q, true); (3%Q, true); (4%Q, true)].
Proof.
  apply (window_keeps_most_recent_samples
           (new_breaker 3 (4 # 10) 15000 1200 "b")
           [(1%Q, true); (2%Q, true); (3%Q, true); (4%Q, true)]
           (failing_world 1 ∅)).
  vm_compute. lia.
Defined.

End Window.

(** ** The state machine *)

Section Transitions.

Implicit Types (b : CircuitBreaker) (w : World) (ms : Q).

Lemma failure_value b ms w :
  fst (failure b ms w) =
    let b1 := _push_outcome b ms false in
    if negb (state_eqb (_state b) open) && trips b1
    then set_last_opened (set_state b1 open) (next_mono w) else b1.
Proof.
  cbv zeta. destruct (state_eqb (_state b) open) eqn:E; simpl.
  - apply state_eqb_eq in E. now apply failure_open.
  - apply state_eqb_neq in E. now apply failure_not_open.
Qed.

(** X2.  The transitions the breaker can make on a reported outcome:
    from closed it stays closed or opens; from open it stays open; from
    probe a success leaves it closed or open and a failure leaves it in
    probe or open.  So no reported outcome puts a breaker into probe, and
    none closes a breaker that is not in probe. *)
Theorem report_transitions b ms ok w :
  let s' := _state (fst (report b (ms, ok) w)) in
  match _state b with
  | closed => s' = closed \/ s' = open
  | open => s' = open
  | probe => if ok then s' = closed \/ s' = open else s' = probe \/ s' = open
  end.
Proof.
  cbv zeta. destruct (_state b) eqn:E.
  - rewrite (report_closed b (ms, ok) w E). cbv zeta.
    destruct (trips _); [now right | left; now rewrite push_outcome_state].
  - rewrite (report_open b (ms, ok) w E). now rewrite push_outcome_state.
  - destruct ok; unfold report; simpl.
    + rewrite (success_probe b ms w E). cbv zeta.
      destruct (trips _); [now right | now left].
    + rewrite failure_value, E. cbv zeta. simpl.
      destruct (trips _); [now right | left; now rewrite push_outcome_state].
Qed.

(** X3.  Cooldown gating.  When a reported outcome trips a breaker that
    was not open, the breaker is open and stamped with the clock reading
    [t0] of that report; from then on [can_probe] answers true exactly when
    the clock reads at least [t0 + cooldown], and [enter_probe] moves to
    probe exactly then.  Once in probe, [can_probe] is false and a second
    [enter_probe] changes nothing. *)
Theorem cooldown_gates_the_probe b ms ok w :
  _state b <> open ->
  _state (fst (report b (ms, ok) w)) = open ->
  let b' := fst (report b (ms, ok) w) in
  _last_opened_at_ms b' = next_mono w /\
  (forall w',
     (fst (can_probe b' w') = true <->
      (_cooldown_ms b <= next_mono w' - next_mono w)%Q) /\
     (_state (fst (enter_probe b' w')) = probe <->
      (_cooldown_ms b <= next_mono w' - next_mono w)%Q) /\
     (forall w'',
        fst (can_probe (fst (enter_probe b' w')) w'') = true ->
        _state (fst (enter_probe b' w')) = open) /\
     (forall w'',
        _state (fst (enter_probe b' w')) = probe ->
        fst (enter_probe (fst (enter_probe b' w')) w'') = fst (enter_probe b' w'))).
Proof.
  intros Hn Ho b'.
  assert (Hopened : _last_opened_at_ms b' = next_mono w).
  { subst b'. revert Ho. unfold report. simpl.
    destruct ok.
    - unfold success. destruct (state_eqb (_state (_push_outcome b ms true)) probe) eqn:P.
      + simpl. rewrite evaluate_not_open by (simpl; discriminate).
        destruct (trips _); simpl; [reflexivity | discriminate].
      + rewrite evaluate_not_open by now rewrite push_outcome_state.
        destruct (trips _); simpl; [reflexivity|].
        rewrite push_outcome_state. congruence.
    - rewrite failure_not_open by assumption. cbv zeta.
      destruct (trips _); simpl; [reflexivity|].
      rewrite push_outcome_state. congruence. }
  assert (Hcool : _cooldown_ms b' = _cooldown_ms b).
  { subst b'. now destruct (report_config b (ms, ok) w) as (_ & _ & -> & _). }
  split; [exact Hopened|]. intros w'.
  assert (Hcp : fst (can_probe b' w') = true <->
                (_cooldown_ms b <= next_mono w' - next_mono w)%Q).
  { rewrite can_probe_open by exact Ho.
    rewrite Hopened, Hcool. apply Qle_bool_iff. }
  split; [exact Hcp|].
  rewrite enter_probe_value.
  destruct (fst (can_probe b' w')) eqn:C.
  - split; [|split].
    + split; [intros _; now apply Hcp | reflexivity].
    + intros w'' H. rewrite can_probe_not_open in H by (simpl; discriminate).
      discriminate.
    + intros w'' _. rewrite enter_probe_value.
      now rewrite can_probe_not_open by (simpl; discriminate).
  - split; [|split].
    + split; [intros H; fold b' in Ho; congruence|].
      intros H. apply Hcp in H. discriminate.
    + intros w'' _. exact Ho.
    + intros w'' H. fold b' in Ho. congruence.
Qed.

Lemma cooldown_gates_the_probe_witness :
  _last_opened_at_ms
    (fst (report (new_breaker 40 (4 # 10) 15000 1200 "b") (900%Q, false)
                 (failing_world 20000 ∅)))
  = next_mono (failing_world 20000 ∅).
Proof.
  apply (cooldown_gates_the_probe (new_breaker 40 (4 # 10) 15000 1200 "b")
           900%Q false (failing_world 20000 ∅)).
  - discriminate.
  - reflexivity.
Defined.

End Transitions.

(** ** Failures and the failure-rate threshold *)

Section FailureRate.

Implicit Types (b : CircuitBreaker) (w : World) (ms : Q).

Lemma inject_nat_pos (n : nat) : 0 < n -> (0 < inject_Z (Z.of_nat n))%Q.
Proof. intros H. change 0%Q with (inject_Z 0). rewrite <- Zlt_Qlt. lia. Qed.

Lemma inject_nat_le (m n : nat) :
  m <= n -> (inject_Z (Z.of_nat m) <= inject_Z (Z.of_nat n))%Q.
Proof. intros H. rewrite <- Zle_Qle. lia. Qed.

(** The rate test, cleared of the division. *)
Lemma fail_rate_ge (window : list (Q * bool)) (r : Q) :
  window <> [] ->
  (r <= window_fail_rate window)%Q <->
  (r * inject_Z (Z.of_nat (length window))
   <= inject_Z (Z.of_nat (count_fails window)))%Q.
Proof.
  intros H. unfold window_fail_rate. destruct window as [|x t]; [congruence|].
  set (f := count_fails (x :: t)). set (n := length (x :: t)).
  assert (Hpos : (0 < inject_Z (Z.of_nat n))%Q)
    by (apply inject_nat_pos; subst n; simpl; lia).
  split.
  - intros L.
    apply (Qmult_le_compat_r _ _ (inject_Z (Z.of_nat n))) in L;
      [|now apply Qlt_le_weak].
    unfold Qdiv in L. rewrite <- Qmult_assoc in L.
    rewrite (Qmult_comm (/ _)), Qmult_inv_r, Qmult_1_r in L
      by (intros E; rewrite E in Hpos; now apply Qlt_irrefl in Hpos).
    exact L.
  - intros L. now apply Qle_shift_div_l.
Qed.

(** A threshold the window has reached is at most 1. *)
Lemma reached_threshold_le_1 (window : list (Q * bool)) (r : Q) :
  window <> [] -> (r <= window_fail_rate window)%Q -> (r <= 1)%Q.
Proof.
  intros H L. eapply Qle_trans; [exact L|].
  unfold window_fail_rate. destruct window as [|x t]; [congruence|].
  apply Qle_shift_div_r.
  - apply inject_nat_pos. simpl. lia.
  - rewrite Qmult_1_l. apply inject_nat_le, count_fails_le.
Qed.

(** Pushing a failure onto a window within capacity never lowers a
    failure rate that had reached the threshold. *)
Lemma push_failure_keeps_rate b ms :
  (1 <= _sample_size b)%Z ->
  length (_outcomes b) <= capacity b ->
  (_outcomes b = [] /\ (_max_fail_rate b <= 1)%Q) \/
  (_outcomes b <> [] /\ (_max_fail_rate b <= window_fail_rate (_outcomes b))%Q) ->
  (_max_fail_rate b
   <= window_fail_rate (_outcomes (_push_outcome b ms false)))%Q.
Proof.
  intros Hcap Hlen H.
  set (r := _max_fail_rate b) in *.
  assert (Hr1 : (r <= 1)%Q).
  { destruct H as [[_ H] | [Hne H]]; [exact H|].
    eapply reached_threshold_le_1; eassumption. }
  unfold capacity in Hlen. unfold _push_outcome.
  destruct (_ <? _)%Z eqn:E; simpl _outcomes.
  - (* full window: the oldest sample leaves *)
    apply Z.ltb_lt in E. rewrite length_app in E. simpl in E.
    destruct (_outcomes b) as [|x t] eqn:Eo; [simpl in *; lia|].
    destruct H as [[H _] | [_ H]]; [discriminate|].
    simpl tl. apply fail_rate_ge; [now destruct t|].
    apply fail_rate_ge in H; [|discriminate].
    rewrite length_app, count_fails_app. simpl length.
    replace (length t + 1) with (S (length t)) by lia.
    eapply Qle_trans; [exact H|]. apply inject_nat_le.
    change (x :: t) with ([x] ++ t). rewrite count_fails_app.
    assert (count_fails [x] <= 1) by apply (count_fails_le [x]).
    assert (count_fails [(ms, false)] = 1) by reflexivity. lia.
  - (* room left: the failure is appended *)
    apply fail_rate_ge; [now destruct (_outcomes b)|].
    rewrite length_app, count_fails_app. simpl length.
    change (count_fails [(ms, false)]) with 1.
    rewrite !Nat2Z.inj_add, !inject_Z_plus. simpl (inject_Z (Z.of_nat 1)).
    rewrite Qmult_plus_distr_r, Qmult_1_r.
    apply Qplus_le_compat; [|exact Hr1].
    destruct H as [[-> _] | [Hne H]].
    + simpl. rewrite Qmult_0_r. apply Qle_refl.
    + now apply fail_rate_ge in H.
Qed.

Lemma failure_trips_opens b ms w :
  _state b <> open ->
  (_max_fail_rate b
   <= window_fail_rate (_outcomes (_push_outcome b ms false)))%Q ->
  _state (fst (failure b ms w)) = open /\
  _last_opened_at_ms (fst (failure b ms w)) = next_mono w.
Proof.
  intros Hn H. rewrite failure_not_open by assumption. cbv zeta.
  assert (T : trips (_push_outcome b ms false) = true).
  { apply trips_iff. left.
    now destruct (push_outcome_config b ms false) as (_ & -> & _). }
  rewrite T. now split.
Qed.

(** A first failure on an empty window. *)
Lemma first_failure_opens_core b ms w :
  _outcomes b = [] -> _state b <> open ->
  (1 <= _sample_size b)%Z -> (_max_fail_rate b <= 1)%Q ->
  _state (fst (failure b ms w)) = open /\
  _last_opened_at_ms (fst (failure b ms w)) = next_mono w /\
  _outcomes (fst (failure b ms w)) = [(ms, false)].
Proof.
  intros He Hn Hcap Hr.
  destruct (failure_trips_opens b ms w Hn) as [Hs Ht].
  { apply push_failure_keeps_rate; [exact Hcap | rewrite He; simpl; lia | now left]. }
  split; [exact Hs|]. split; [exact Ht|].
  unfold failure. rewrite evaluate_outcomes, push_within_capacity.
  - now rewrite He.
  - rewrite He. simpl. lia.
Qed.

(** X4.  A breaker whose window is empty opens on its first failure,
    whatever the duration, as soon as its capacity is at least one and its
    failure-rate threshold is at most 100%: one failure in one sample is a
    rate of 1.  Both clients' breakers (thresholds 0.4 and 0.35) do. *)
Theorem first_failure_opens b ms w :
  _outcomes b = [] -> _state b <> open ->
  (1 <= _sample_size b)%Z -> (_max_fail_rate b <= 1)%Q ->
  _state (fst (failure b ms w)) = open /\
  _last_opened_at_ms (fst (failure b ms w)) = next_mono w /\
  _outcomes (fst (failure b ms w)) = [(ms, false)].
Proof. exact (first_failure_opens_core b ms w). Qed.

Lemma first_failure_opens_witness :
  _state (fst (failure (_breaker new_allergen_client) 800%Q (failing_world 1 ∅)))
    = open /\
  _last_opened_at_ms
    (fst (failure (_breaker new_allergen_client) 800%Q (failing_world 1 ∅)))
    = next_mono (failing_world 1 ∅) /\
  _outcomes (fst (failure (_breaker new_allergen_client) 800%Q (failing_world 1 ∅)))
    = [(800%Q, false)].
Proof.
  apply (first_failure_opens (_breaker new_allergen_client) 800%Q
           (failing_world 1 ∅)).
  - reflexivity.
  - discriminate.
  - vm_compute. discriminate.
  - vm_compute. discriminate.
Defined.

(** X5.  A failed probe re-opens the breaker with a fresh cooldown
    whenever the window it is pushed onto had reached the failure-rate
    threshold (the window a breaker has when it was tripped by failures and
    nothing was reported while it was open): the state after [failure] is
    open and the opening time is the clock reading of that failure. *)
Theorem probe_failure_reopens_tripped_window b ms w :
  _state b = probe ->
  (1 <= _sample_size b)%Z ->
  length (_outcomes b) <= capacity b ->
  _outcomes b <> [] ->
  (_max_fail_rate b <= window_fail_rate (_outcomes b))%Q ->
  _state (fst (failure b ms w)) = open /\
  _last_opened_at_ms (fst (failure b ms w)) = next_mono w /\
  forall w', (next_mono w' - next_mono w < _cooldown_ms b)%Q ->
             fst (can_probe (fst (failure b ms w)) w') = false.
Proof.
  intros Hp Hcap Hlen Hne Hr.
  destruct (failure_trips_opens b ms w) as [Hs Ht].
  { rewrite Hp. discriminate. }
  { apply push_failure_keeps_rate; auto. }
  split; [exact Hs|]. split; [exact Ht|].
  intros w' Hc. rewrite can_probe_open by exact Hs. rewrite Ht.
  assert (Ec : _cooldown_ms (fst (failure b ms w)) = _cooldown_ms b).
  { pose proof (report_config b (ms, false) w) as C.
    unfold report in C. simpl in C. now destruct C as (_ & _ & C & _). }
  rewrite Ec. destruct (Qle_bool _ _) eqn:L; [|reflexivity].
  apply Qle_bool_iff in L. now apply Qlt_not_le in Hc.
Qed.

Lemma probe_failure_reopens_tripped_window_witness :
  let w0 := failing_world 20000 ∅ in
  let b1 := fst (failure (new_breaker 40 (4 # 10) 15000 1200 "b") 900%Q w0) in
  let w1 := snd (failure (new_breaker 40 (4 # 10) 15000 1200 "b") 900%Q w0) in
  let b2 := fst (enter_probe b1 w1) in
  let w2 := snd (enter_probe b1 w1) in
  _state (fst (failure b2 900%Q w2)) = open /\
  _last_opened_at_ms (fst (failure b2 900%Q w2)) = next_mono w2.
Proof.
  cbv zeta.
  edestruct (probe_failure_reopens_tripped_window
               (fst (enter_probe
                       (fst (failure (new_breaker 40 (4 # 10) 15000 1200 "b")
                               900%Q (failing_world 20000 ∅)))
                       (snd (failure (new_breaker 40 (4 # 10) 15000 1200 "b")
                               900%Q (failing_world 20000 ∅)))))
               900%Q
               (snd (enter_probe
                       (fst (failure (new_breaker 40 (4 # 10) 15000 1200 "b")
                               900%Q (failing_world 20000 ∅)))
                       (snd (failure (new_breaker 40 (4 # 10) 15000 1200 "b")
                               900%Q (failing_world 20000 ∅))))))
    as (Hs & Ht & _).
  - reflexivity.
  - vm_compute. discriminate.
  - vm_compute. lia.
  - vm_compute. discriminate.
  - vm_compute. discriminate.
  - split; [exact Hs | exact Ht].
Defined.

End FailureRate.

(** ** The rank of the p95 latency *)

Section Rank.

Lemma filter_all_length {A} (P : A -> Prop) `{forall x, Decision (P x)}
    (l : list A) :
  Forall P l -> length (filter P l) = length l.
Proof.
  induction 1 as [|x l Hx Hl IH]; [reflexivity|].
  rewrite filter_cons. destruct (decide (P x)); [simpl; now rewrite IH | tauto].
Qed.

Lemma filter_take_length {A} (P : A -> Prop) `{forall x, Decision (P x)}
    (l : list A) (k : nat) :
  length (filter P (take k l)) <= length (filter P l).
Proof.
  rewrite <- (take_drop k l) at 2. rewrite filter_app, length_app. lia.
Qed.

Lemma filter_drop_length {A} (P : A -> Prop) `{forall x, Decision (P x)}
    (l : list A) (k : nat) :
  length (filter P (drop k l)) <= length (filter P l).
Proof.
  rewrite <- (take_drop k l) at 2. rewrite filter_app, length_app. lia.
Qed.

Instance Qle_transitive : Transitive Qle.
Proof. intros x y z. apply Qle_trans. Qed.

(** In an ascending list everything from position [i] on is at least
    the element at [i], and everything up to [i] is at most it. *)
Lemma ascending_split (l : list Q) : forall i a,
  StronglySorted Qle l -> l !! i = Some a ->
  Forall (fun y => Qle_bool a y = true) (drop i l) /\
  Forall (fun y => Qle_bool y a = true) (take (S i) l).
Proof.
  induction l as [|x l IH]; intros i a Hs Hi; [discriminate|].
  apply StronglySorted_inv in Hs as [Hs Hx].
  destruct i as [|i]; simpl in Hi.
  - injection Hi as ->. split.
    + simpl. constructor; [apply Qle_bool_iff, Qle_refl|].
      eapply Forall_impl; [exact Hx|]. intros y. apply Qle_bool_iff.
    + simpl. rewrite take_0. repeat constructor. apply Qle_bool_iff, Qle_refl.
  - destruct (IH i a Hs Hi) as [Hd Ht]. split; [exact Hd|].
    change (take (S (S i)) (x :: l)) with (x :: take (S i) l).
    constructor; [|exact Ht].
    apply Qle_bool_iff. rewrite Forall_forall in Hx. apply Hx.
    eapply list_elem_of_lookup_2; eassumption.
Qed.

Lemma count_at_least_perm m (l1 l2 : list Q) :
  l1 ≡ₚ l2 -> count_at_least m l1 = count_at_least m l2.
Proof. intros H. unfold count_at_least. now rewrite H. Qed.

Lemma count_at_most_perm m (l1 l2 : list Q) :
  l1 ≡ₚ l2 -> count_at_most m l1 = count_at_most m l2.
Proof. intros H. unfold count_at_most. now rewrite H. Qed.

Lemma count_at_least_antitone (m m' : Q) (l : list Q) :
  (m <= m')%Q -> count_at_least m' l <= count_at_least m l.
Proof.
  intros H. unfold count_at_least. induction l as [|y l IH]; [reflexivity|].
  rewrite !filter_cons.
  destruct (decide (Qle_bool m' y = true)) as [D | D];
    destruct (decide (Qle_bool m y = true)) as [E | E]; simpl; try lia.
  exfalso. apply E. apply Qle_bool_iff. apply Qle_bool_iff in D.
  eapply Qle_trans; eassumption.
Qed.

(** Counting around the value [p95] returns. *)
Lemma p95_rank_core (values : list Q) :
  values <> [] ->
  let idx := int_095 (length values - 1) in
  p95 values ∈ values /\
  idx + 1 <= count_at_most (p95 values) values /\
  length values - idx <= count_at_least (p95 values) values.
Proof.
  intros Hne idx. split; [now apply p95_elem|].
  assert (Hidx : idx < length (sorted values)).
  { rewrite sorted_length. pose proof (int_095_le (length values - 1)).
    subst idx. destruct values; [congruence|]. simpl in *. lia. }
  destruct (lookup_lt_is_Some_2 _ _ Hidx) as [a Ha].
  assert (Ep : p95 values = a).
  { rewrite p95_index by assumption. now apply nth_lookup_Some. }
  rewrite Ep.
  destruct (ascending_split (sorted values) idx a) as [Hd Ht]; [|exact Ha|].
  { apply Sorted_StronglySorted; [apply Qle_transitive | apply sorted_ascending]. }
  rewrite <- (count_at_most_perm a _ _ (sorted_perm values)).
  rewrite <- (count_at_least_perm a _ _ (sorted_perm values)).
  split.
  - unfold count_at_most.
    etransitivity; [|apply (filter_take_length _ _ (S idx))].
    rewrite filter_all_length by exact Ht. rewrite length_take. lia.
  - unfold count_at_least.
    etransitivity; [|apply (filter_drop_length _ _ idx)].
    rewrite filter_all_length by exact Hd.
    rewrite length_drop, sorted_length. lia.
Qed.

(** X6.  The rank of [p95]: for a non-empty list of [len] durations,
    with [idx = floor(0.95 * (len - 1))], the value returned is one of the
    durations, at least [idx + 1] of the durations are at most it and at
    least [len - idx] are at least it. *)
Theorem p95_rank (values : list Q) :
  values <> [] ->
  let idx := int_095 (length values - 1) in
  p95 values ∈ values /\
  idx + 1 <= count_at_most (p95 values) values /\
  length values - idx <= count_at_least (p95 values) values.
Proof. exact (p95_rank_core values). Qed.

Lemma p95_rank_witness :
  p95 [300; 100; 1300; 200]%Q ∈ [300; 100; 1300; 200]%Q /\
  int_095 (length [300; 100; 1300; 200]%Q - 1) + 1
    <= count_at_most (p95 [300; 100; 1300; 200]%Q) [300; 100; 1300; 200]%Q /\
  length [300; 100; 1300; 200]%Q - int_095 (length [300; 100; 1300; 200]%Q - 1)
    <= count_at_least (p95 [300; 100; 1300; 200]%Q) [300; 100; 1300; 200]%Q.
Proof. apply (p95_rank [300; 100; 1300; 200]%Q). discriminate. Defined.

(** X7.  A single slow sample does not reach the latency threshold
    once the window holds two samples or more: when at most one duration of
    the window is at or above the threshold, [p95] is below it. *)
Theorem single_outlier_below_p95_threshold (outcomes : list (Q * bool))
    (max_p95 : Q) :
  2 <= length outcomes ->
  count_at_least max_p95 (map fst outcomes) <= 1 ->
  (window_p95 outcomes < max_p95)%Q /\
  Qle_bool max_p95 (window_p95 outcomes) = false.
Proof.
  intros Hlen Hone.
  assert (L : (window_p95 outcomes < max_p95)%Q).
  { apply Qnot_le_lt. intros Hge. unfold window_p95 in Hge.
    set (values := map fst outcomes) in *.
    assert (Hl : length values = length outcomes) by apply length_map.
    assert (Hne : values <> []) by (intros E; rewrite E in Hl; simpl in Hl; lia).
    destruct (p95_rank_core values Hne) as (_ & _ & Hr).
    pose proof (count_at_least_antitone max_p95 (p95 values) values Hge).
    pose proof (int_095_floor (length values - 1)).
    assert (int_095 (length values - 1) + 2 <= length values) by lia.
    lia. }
  split; [exact L|].
  destruct (Qle_bool _ _) eqn:E; [|reflexivity].
  apply Qle_bool_iff in E. now apply Qle_not_lt in E.
Qed.

Lemma single_outlier_below_p95_threshold_witness :
  (window_p95 [(100%Q, true); (5000%Q, true); (120%Q, true)] < 1200)%Q /\
  Qle_bool 1200 (window_p95 [(100%Q, true); (5000%Q, true); (120%Q, true)])
    = false.
Proof.
  apply (single_outlier_below_p95_threshold
           [(100%Q, true); (5000%Q, true); (120%Q, true)] 1200%Q).
  - simpl. lia.
  - vm_compute. lia.
Defined.

End Rank.

(** ** Substrings and the baseline estimate *)

Section Baseline.

Lemma prefix_iff (pat s : string) :
  String.prefix pat s = true <-> exists post, s = pat +:+ post.
Proof.
  revert s. induction pat as [|c pat IH]; intros s.
  - split; [intros _; now exists s | intros _; now destruct s].
  - destruct s as [|d s]; simpl;
      [split; [discriminate | intros [post E]; discriminate]|].
    destruct (Ascii.ascii_dec c d) as [-> | N].
    + rewrite IH. split; intros [post E]; exists post.
      * now rewrite E.
      * now injection E.
    + split; [discriminate|]. intros [post E]. injection E as E _. congruence.
Qed.

(** [contains] decides occurrence. *)
Lemma contains_iff (pat s : string) :
  contains pat s = true <-> occurs_in pat s.
Proof.
  unfold occurs_in. induction s as [|d s IH].
  - cbn [contains]. rewrite orb_false_r, prefix_iff. split.
    + intros [post E]. now exists EmptyString, post.
    + intros (pre & post & E). destruct pre as [|c pre]; [now exists post|].
      discriminate.
  - cbn [contains]. rewrite orb_true_iff, prefix_iff, IH. split.
    + intros [[post E] | (pre & post & E)].
      * now exists EmptyString, post.
      * exists (String d pre), post. simpl. now rewrite E.
    + intros (pre & post & E). destruct pre as [|c pre].
      * left. now exists post.
      * right. injection E as _ E. now exists pre, post.
Qed.

(** X8.  The baseline estimate looks for the category words in a fixed
    order: a SKU in which STEAK occurs is 399 whatever else occurs in it;
    otherwise one in which FISH occurs is 349; otherwise one in which PASTA
    occurs is 149; every other SKU, the empty one included, is 250.  The
    search is by exact (case-sensitive) occurrence, and the estimate is
    always between 149 and 399. *)
Theorem baseline_estimate_by_category (sku : string) :
  (baseline_estimate_cents sku = 399%Z <-> occurs_in "STEAK" sku) /\
  (baseline_estimate_cents sku = 349%Z <->
   ~ occurs_in "STEAK" sku /\ occurs_in "FISH" sku) /\
  (baseline_estimate_cents sku = 149%Z <->
   ~ occurs_in "STEAK" sku /\ ~ occurs_in "FISH" sku /\ occurs_in "PASTA" sku) /\
  (baseline_estimate_cents sku = 250%Z <->
   ~ occurs_in "STEAK" sku /\ ~ occurs_in "FISH" sku /\ ~ occurs_in "PASTA" sku) /\
  (149 <= baseline_estimate_cents sku <= 399)%Z.
Proof.
  unfold baseline_estimate_cents.
  rewrite <- !(contains_iff "STEAK"), <- !(contains_iff "FISH"),
    <- !(contains_iff "PASTA").
  destruct (contains "STEAK" sku), (contains "FISH" sku), (contains "PASTA" sku);
    repeat split; intros; try discriminate; try lia; try congruence;
    repeat match goal with
           | H : _ /\ _ |- _ => destruct H
           end; try congruence; try discriminate.
Qed.

End Baseline.

(** ** Freshness labels *)

Section FreshnessGeneral.

Lemma floordiv_bounds (a b : Q) :
  (0 < b)%Q ->
  (inject_Z (floordiv a b) * b <= a)%Q /\
  (a < (inject_Z (floordiv a b) + 1) * b)%Q.
Proof.
  intros Hb. unfold floordiv.
  assert (Hnz : ~ (b == 0)%Q)
    by (intros E; rewrite E in Hb; now apply Qlt_irrefl in Hb).
  pose proof (Qfloor_le (a / b)) as Lo. pose proof (Qlt_floor (a / b)) as Hi.
  rewrite inject_Z_plus in Hi. simpl (inject_Z 1) in Hi.
  split.
  - apply (Qmult_le_compat_r _ _ b) in Lo; [|now apply Qlt_le_weak].
    rewrite (Qmult_comm (a / b)), Qmult_div_r in Lo by exact Hnz. exact Lo.
  - apply (Qmult_lt_compat_r _ _ b) in Hi; [|exact Hb].
    rewrite (Qmult_comm (a / b)), Qmult_div_r in Hi by exact Hnz. exact Hi.
Qed.

(** X9.  The freshness label reads the wall clock once and splits the
    age [now - ts] into whole hours [h] (rounded down) and whole minutes [m]
    of the remainder: [m] is always between 0 and 59, [h] hours and [m]
    minutes is at most the age and less than a minute under it, and the
    label is "<h>h <m>m old" when the age is an hour or more and "<m>m old"
    otherwise - also for a timestamp ahead of the clock, whose negative
    hours are not shown. *)
Theorem freshness_label_hours_minutes (ts : Q) (w : World) :
  let age := (clock_wall w (ticks_wall w) - ts)%Q in
  let h := floordiv age (inject_Z 3600000) in
  let m := floordiv (pymod age (inject_Z 3600000)) (inject_Z 60000) in
  (0 <= m < 60)%Z /\
  (inject_Z h * inject_Z 3600000 + inject_Z m * inject_Z 60000 <= age)%Q /\
  (age < inject_Z h * inject_Z 3600000 + (inject_Z m + 1) * inject_Z 60000)%Q /\
  ((0 < h)%Z <-> (inject_Z 3600000 <= age)%Q) /\
  fst (freshness_label ts w) =
    (if (0 <? h)%Z
     then str_int h +:+ "h " +:+ str_int m +:+ "m old"
     else str_int m +:+ "m old") /\
  ticks_wall (snd (freshness_label ts w)) = S (ticks_wall w).
Proof.
  intros age h m.
  destruct (floordiv_bounds age (inject_Z 3600000)) as [Hlo Hhi]; [reflexivity|].
  fold h in Hlo, Hhi.
  set (q := pymod age (inject_Z 3600000)) in *.
  assert (Eq : (q == age - inject_Z 3600000 * inject_Z h)%Q).
  { subst q. unfold pymod. fold h. reflexivity. }
  destruct (floordiv_bounds q (inject_Z 60000)) as [Mlo Mhi]; [reflexivity|].
  fold m in Mlo, Mhi.
  change (inject_Z 3600000) with 3600000%Q in *.
  change (inject_Z 60000) with 60000%Q in *.
  assert (Hm : (0 <= m < 60)%Z).
  { split.
    - destruct (Z_lt_le_dec m 0) as [N|]; [exfalso | assumption].
      assert (L : (inject_Z m <= -1)%Q)
        by (change (-1)%Q with (inject_Z (-1)); rewrite <- Zle_Qle; lia).
      lra.
    - destruct (Z_lt_le_dec m 60) as [|N]; [assumption | exfalso].
      assert (L : (60 <= inject_Z m)%Q)
        by (change 60%Q with (inject_Z 60); rewrite <- Zle_Qle; lia).
      lra. }
  split; [exact Hm|].
  split; [lra|]. split; [lra|].
  split.
  { split.
    - intros Hpos.
      assert (L : (1 <= inject_Z h)%Q)
        by (change 1%Q with (inject_Z 1); rewrite <- Zle_Qle; lia).
      lra.
    - intros Hage.
      destruct (Z_lt_le_dec 0 h) as [|N]; [assumption | exfalso].
      assert (L : (inject_Z h <= 0)%Q)
        by (change 0%Q with (inject_Z 0); rewrite <- Zle_Qle; lia).
      lra. }
  split; reflexivity.
Qed.

Lemma freshness_label_hours_minutes_demo :
  fst (freshness_label (inject_Z (- 45000000)) (failing_world 1 ∅))
    = "12h 30m old" /\
  fst (freshness_label (inject_Z 1) (failing_world 1 ∅)) = "59m old".
Proof. split; reflexivity. Qed.

End FreshnessGeneral.

(** ** The supplier chain, tier by tier *)

Section SupplierTiers.

Implicit Types (self : SupplierClient) (sku : string) (region : Region)
  (reasons : list string) (w : World).

Lemma not_open_never_skipped (brk : CircuitBreaker) w :
  _state brk <> open -> fst (open_and_cannot_probe brk w) = false.
Proof.
  intros H. destruct (fst (open_and_cannot_probe brk w)) eqn:S; [|reflexivity].
  apply open_and_cannot_probe_true in S as [S _]. congruence.
Qed.

(** A region that is called and returns a price in time: the attempt
    hands the price back and stores it in the cache, stamped with the wall
    clock. *)
Lemma attempt_returned_stores self sku reasons region w c :
  fst (open_and_cannot_probe (_breakers self region) w) = false ->
  supplier_api w (length (supplier_calls w)) sku region = Returned c ->
  exists self' w',
    attempt self sku reasons region w
      = (Ret (Some {| cents := c;
                      is_degraded := (0 <? length reasons)%nat;
                      reasons := reasons;
                      freshness := None |}, self', reasons), w') /\
    price_cache w'
      = <[sku := {| entry_cents := c;
                    entry_ts := clock_wall w (ticks_wall w) |}]> (price_cache w) /\
    supplier_calls w' = supplier_calls w ++ [(sku, region)] /\
    supplier_api w' = supplier_api w /\
    (forall r, r <> region -> _breakers self' r = _breakers self r).
Proof.
  intros H R. unfold attempt, bind, lift.
  pose proof (open_and_cannot_probe_quiet (_breakers self region) w) as Q0.
  destruct (open_and_cannot_probe (_breakers self region) w) as [skip w0].
  simpl in H, Q0. subst skip.
  pose proof (probe_if_due_quiet (_breakers self region) w0) as Q1.
  destruct (probe_if_due (_breakers self region) w0) as [brk w1].
  simpl in Q1.
  pose proof (quiet_trans _ _ _ Q0 Q1) as Q.
  destruct Q as (Qm & Qw & Qtw & Qs & Qsc & Qa & Qac & Ql & Qc).
  unfold try_except, with_timeout, _try_region, bind, lift,
    fetch_supplier_price. simpl.
  rewrite Qs, Qsc, R. simpl.
  match goal with
  | |- context [success ?b ?d ?x] =>
      pose proof (success_quiet b d x) as Qx;
      destruct (success b d x) as [brk1 w2]
  end.
  simpl in Qx. destruct Qx as (_ & Qw2 & Qtw2 & Qs2 & Qsc2 & _ & _ & _ & Qc2).
  eexists _, _. split; [reflexivity|]. simpl.
  repeat split.
  - now rewrite Qc2, Qw2, Qtw2, Qc, Qw, Qtw.
  - now rewrite Qsc2.
  - now rewrite Qs2.
  - intros r Hr. destruct r, region; simpl; congruence.
Qed.

(** A region that yields no price: skipped, or called at the current
    call index without a price coming back. *)
Lemma attempt_yields_none self sku reasons region w :
  (forall c, supplier_api w (length (supplier_calls w)) sku region <> Returned c) ->
  exists self' tag w',
    attempt self sku reasons region w = (Ret (None, self', reasons ++ [tag]), w') /\
    (tag = "supplier_open" \/ tag = "supplier_error_" +:+ region_str region) /\
    (supplier_calls w' = supplier_calls w \/
     supplier_calls w' = supplier_calls w ++ [(sku, region)]) /\
    supplier_api w' = supplier_api w /\
    price_cache w' = price_cache w /\
    clock_wall w' = clock_wall w /\ ticks_wall w' = ticks_wall w /\
    (forall r, r <> region -> _breakers self' r = _breakers self r).
Proof.
  intros Hfail.
  destruct (fst (open_and_cannot_probe (_breakers self region) w)) eqn:S.
  - destruct (attempt_skipped self sku reasons region w S) as (w' & E & Q).
    destruct Q as (_ & Qw & Qtw & Qs & Qsc & _ & _ & _ & Qc).
    exists self, "supplier_open", w'. repeat split; auto.
  - destruct (attempt_called self sku reasons region w S)
      as (self' & w' & M & Csc & Cs & Cw & Cb).
    destruct (supplier_api w (length (supplier_calls w)) sku region) eqn:R;
      [now destruct (Hfail a) | |];
      destruct M as (E & Cc & Ctw);
      exists self', ("supplier_error_" +:+ region_str region), w';
      repeat split; auto.
Qed.

(** X10.  First success stops the chain.  When the preferred region's
    breaker is not open and its call returns a price, [get_price] returns
    that price, not degraded, with no reasons and no freshness; it has made
    that one call and none to the mirror, whose breaker is untouched; and the
    price is in the cache under the SKU, stamped with the wall clock. *)
Theorem primary_success_short_circuits self sku preferred w c :
  _state (_breakers self preferred) <> open ->
  supplier_api w (length (supplier_calls w)) sku preferred = Returned c ->
  exists self' w',
    get_price self sku preferred w
      = (Ret ({| cents := c; is_degraded := false; reasons := [];
                 freshness := None |}, self'), w') /\
    supplier_calls w' = supplier_calls w ++ [(sku, preferred)] /\
    _breakers self' (mirror_of preferred) = _breakers self (mirror_of preferred) /\
    price_cache w' !! sku
      = Some {| entry_cents := c; entry_ts := clock_wall w (ticks_wall w) |}.
Proof.
  intros Hn R. unfold get_price, bind.
  destruct (attempt_returned_stores self sku [] preferred w c)
    as (self' & w' & E & Cc & Csc & _ & Cb);
    [now apply not_open_never_skipped | exact R |].
  rewrite E. simpl. exists self', w'.
  split; [reflexivity|]. split; [exact Csc|]. split.
  - apply Cb. unfold mirror_of. now destruct preferred.
  - rewrite Cc. apply lookup_insert_eq.
Qed.

Lemma primary_success_short_circuits_witness :
  exists self' w',
    get_price new_supplier_client "SKU_TOMATO" us_east
      (make_world (fun n => inject_Z (Z.of_nat n)) (fun n => inject_Z 5)
         (fun _ _ _ => Returned 321%Z) (fun _ _ _ => Hangs) ∅)
      = (Ret ({| cents := 321; is_degraded := false; reasons := [];
                 freshness := None |}, self'), w') /\
    supplier_calls w' = [] ++ [("SKU_TOMATO", us_east)] /\
    _breakers self' (mirror_of us_east)
      = _breakers new_supplier_client (mirror_of us_east) /\
    price_cache w' !! "SKU_TOMATO"
      = Some {| entry_cents := 321; entry_ts := inject_Z 5 |}.
Proof.
  apply (primary_success_short_circuits new_supplier_client "SKU_TOMATO" us_east
           (make_world (fun n => inject_Z (Z.of_nat n)) (fun n => inject_Z 5)
              (fun _ _ _ => Returned 321%Z) (fun _ _ _ => Hangs) ∅) 321%Z).
  - discriminate.
  - reflexivity.
Defined.

(** X11.  The mirror tier.  When the preferred region yields no price
    (skipped, failed or timed out) and the mirror's breaker is not open and
    its call returns a price, [get_price] returns that price marked
    degraded, with reasons the preferred region's tag followed by
    [used_mirror], no freshness, and the price is stored in the cache. *)
Theorem mirror_success_is_degraded self sku preferred w c :
  (forall c', supplier_api w (length (supplier_calls w)) sku preferred
              <> Returned c') ->
  _state (_breakers self (mirror_of preferred)) <> open ->
  (forall n, supplier_api w n sku (mirror_of preferred) = Returned c) ->
  exists t1 self' w',
    get_price self sku preferred w
      = (Ret ({| cents := c; is_degraded := true;
                 reasons := [t1; "used_mirror"];
                 freshness := None |}, self'), w') /\
    (t1 = "supplier_open" \/ t1 = "supplier_error_" +:+ region_str preferred) /\
    (exists ts, price_cache w' !! sku = Some {| entry_cents := c; entry_ts := ts |}).
Proof.
  intros Hfail Hn Hret. unfold get_price, bind.
  destruct (attempt_yields_none self sku [] preferred w Hfail)
    as (self1 & t1 & w1 & E1 & T1 & _ & A1 & _ & _ & _ & B1).
  rewrite E1. fold (mirror_of preferred).
  destruct (attempt_returned_stores self1 sku ([] ++ [t1]) (mirror_of preferred) w1 c)
    as (self2 & w2 & E2 & Cc & _).
  { apply not_open_never_skipped. rewrite B1; [exact Hn|].
    unfold mirror_of. now destruct preferred. }
  { rewrite A1. apply Hret. }
  rewrite E2. simpl. exists t1, self2, w2.
  split; [reflexivity|]. split; [exact T1|].
  eexists. rewrite Cc. apply lookup_insert_eq.
Qed.

Lemma mirror_success_is_degraded_witness :
  exists t1 self' w',
    get_price new_supplier_client "SKU_TOMATO" us_west
      (make_world (fun n => inject_Z (Z.of_nat n)) (fun n => inject_Z 5)
         (fun _ _ r => match r with
                       | us_west => Raised (Exception "429_throttle")
                       | us_east => Returned 321%Z
                       end)
         (fun _ _ _ => Hangs) ∅)
      = (Ret ({| cents := 321; is_degraded := true;
                 reasons := [t1; "used_mirror"];
                 freshness := None |}, self'), w') /\
    (t1 = "supplier_open" \/ t1 = "supplier_error_" +:+ region_str us_west) /\
    (exists ts, price_cache w' !! "SKU_TOMATO"
                = Some {| entry_cents := 321; entry_ts := ts |}).
Proof.
  apply (mirror_success_is_degraded new_supplier_client "SKU_TOMATO" us_west
           (make_world (fun n => inject_Z (Z.of_nat n)) (fun n => inject_Z 5)
              (fun _ _ r => match r with
                            | us_west => Raised (Exception "429_throttle")
                            | us_east => Returned 321%Z
                            end)
              (fun _ _ _ => Hangs) ∅) 321%Z).
  - intros c'. discriminate.
  - discriminate.
  - intros n. reflexivity.
Defined.

End SupplierTiers.

Section SupplierChain.

Implicit Types (self : SupplierClient) (sku : string) (region : Region)
  (reasons : list string) (w : World).

Lemma freshness_label_depends_on_wall_clock (ts : Q) w w' :
  clock_wall w' = clock_wall w -> ticks_wall w' = ticks_wall w ->
  fst (freshness_label ts w') = fst (freshness_label ts w).
Proof. intros H1 H2. unfold freshness_label, now_ms_wall. now rewrite H1, H2. Qed.

(** The cache tier of [get_price]. *)
Lemma cache_tier_serves_any_age_core self sku preferred w entry :
  (forall n region c,
     length (supplier_calls w) <= n -> supplier_api w n sku region <> Returned c) ->
  price_cache w !! sku = Some entry ->
  exists t1 t2 self' w',
    get_price self sku preferred w
      = (Ret ({| cents := entry_cents entry; is_degraded := true;
                 reasons := [t1; t2; "used_cache"];
                 freshness := Some (fst (freshness_label (entry_ts entry) w)) |},
              self'), w') /\
    (t1 = "supplier_open" \/ t1 = "supplier_error_" +:+ region_str preferred) /\
    (t2 = "supplier_open" \/
     t2 = "supplier_error_" +:+ region_str (mirror_of preferred)) /\
    price_cache w' = price_cache w.
Proof.
  intros Hfail Hc. unfold get_price, bind.
  destruct (attempt_yields_none self sku [] preferred w)
    as (self1 & t1 & w1 & E1 & T1 & S1 & A1 & C1 & W1 & K1 & _).
  { intros c. now apply Hfail. }
  rewrite E1. fold (mirror_of preferred).
  destruct (attempt_yields_none self1 sku ([] ++ [t1]) (mirror_of preferred) w1)
    as (self2 & t2 & w2 & E2 & T2 & _ & _ & C2 & W2 & K2 & _).
  { intros c. rewrite A1. apply Hfail.
    destruct S1 as [-> | ->]; [lia | rewrite length_app; lia]. }
  rewrite E2. unfold lift, cache_get. cbn [fst snd].
  rewrite C2, C1, Hc.
  pose proof (freshness_label_depends_on_wall_clock (entry_ts entry) w w2) as F.
  rewrite W2, W1, K2, K1 in F. specialize (F eq_refl eq_refl).
  assert (Pc : price_cache (snd (freshness_label (entry_ts entry) w2))
               = price_cache w2) by reflexivity.
  destruct (freshness_label (entry_ts entry) w2) as [label w3].
  simpl in F, Pc. subst label. simpl.
  eexists t1, t2, _, _. split; [reflexivity|]. simpl.
  repeat split; auto. now rewrite Pc, C2, C1.
Qed.

(** X12.  The cache tier.  When no region returns a price from the
    current call index on and the cache has an entry for the SKU, [get_price]
    returns the cached price, degraded, with one tag per region followed by
    [used_cache], and with the freshness label of the entry's timestamp at
    the current wall-clock reading.  The entry is served whatever its age,
    and the cache is left as it was. *)
Theorem cache_tier_serves_any_age self sku preferred w entry :
  (forall n region c,
     length (supplier_calls w) <= n -> supplier_api w n sku region <> Returned c) ->
  price_cache w !! sku = Some entry ->
  exists t1 t2 self' w',
    get_price self sku preferred w
      = (Ret ({| cents := entry_cents entry; is_degraded := true;
                 reasons := [t1; t2; "used_cache"];
                 freshness := Some (fst (freshness_label (entry_ts entry) w)) |},
              self'), w') /\
    (t1 = "supplier_open" \/ t1 = "supplier_error_" +:+ region_str preferred) /\
    (t2 = "supplier_open" \/
     t2 = "supplier_error_" +:+ region_str (mirror_of preferred)) /\
    price_cache w' = price_cache w.
Proof. exact (cache_tier_serves_any_age_core self sku preferred w entry). Qed.

Lemma cache_tier_serves_any_age_witness :
  exists t1 t2 self' w',
    get_price new_supplier_client "X" us_east (failing_world 1 cache_x_199)
      = (Ret ({| cents := 199; is_degraded := true;
                 reasons := [t1; t2; "used_cache"];
                 freshness := Some "30m old" |}, self'), w') /\
    (t1 = "supplier_open" \/ t1 = "supplier_error_" +:+ region_str us_east) /\
    (t2 = "supplier_open" \/
     t2 = "supplier_error_" +:+ region_str (mirror_of us_east)) /\
    price_cache w' = price_cache (failing_world 1 cache_x_199).
Proof.
  apply (cache_tier_serves_any_age new_supplier_client "X" us_east
           (failing_world 1 cache_x_199)
           {| entry_cents := 199; entry_ts := inject_Z (- (1000 * 60 * 30)) |}).
  - intros n region c _. discriminate.
  - reflexivity.
Defined.

(** X13.  A price fetched once is served from the cache later.  After a
    [get_price] that got price [c] from the preferred region, any later
    [get_price] for the same SKU (whatever the preferred region and the
    breakers) during which no region returns a price hands back [c], degraded
    and tagged [used_cache]. *)
Theorem fetched_price_is_served_from_cache self sku preferred preferred' w c :
  _state (_breakers self preferred) <> open ->
  supplier_api w (length (supplier_calls w)) sku preferred = Returned c ->
  (forall n region c',
     length (supplier_calls w) < n -> supplier_api w n sku region <> Returned c') ->
  exists self1 w1 r2 self2 w2 t1 t2,
    get_price self sku preferred w
      = (Ret ({| cents := c; is_degraded := false; reasons := [];
                 freshness := None |}, self1), w1) /\
    get_price self1 sku preferred' w1 = (Ret (r2, self2), w2) /\
    cents r2 = c /\ is_degraded r2 = true /\
    reasons r2 = [t1; t2; "used_cache"] /\
    freshness r2 <> None.
Proof.
  intros Hn R Hlater.
  assert (E1 : exists self1 w1,
             get_price self sku preferred w
               = (Ret ({| cents := c; is_degraded := false; reasons := [];
                          freshness := None |}, self1), w1) /\
             supplier_calls w1 = supplier_calls w ++ [(sku, preferred)] /\
             supplier_api w1 = supplier_api w /\
             price_cache w1 !! sku
               = Some {| entry_cents := c;
                         entry_ts := clock_wall w (ticks_wall w) |}).
  { unfold get_price, bind.
    destruct (attempt_returned_stores self sku [] preferred w c)
      as (self' & w' & E & Cc & Csc & Cs & _);
      [now apply not_open_never_skipped | exact R |].
    rewrite E. simpl. exists self', w'. repeat split; auto.
    rewrite Cc. apply lookup_insert_eq. }
  destruct E1 as (self1 & w1 & E1 & Csc & Cs & Cc).
  destruct (cache_tier_serves_any_age_core self1 sku preferred' w1
              {| entry_cents := c; entry_ts := clock_wall w (ticks_wall w) |})
    as (t1 & t2 & self2 & w2 & E2 & _); [|exact Cc|].
  { intros n region c' Hlen. rewrite Cs. apply Hlater.
    rewrite Csc, length_app in Hlen. simpl in Hlen. lia. }
  exists self1, w1. eexists _, self2, w2, t1, t2.
  split; [exact E1|]. split; [exact E2|]. simpl. repeat split. discriminate.
Qed.

Lemma fetched_price_is_served_from_cache_witness :
  exists self1 w1 r2 self2 w2 t1 t2,
    get_price new_supplier_client "SKU_TOMATO" us_east
      (make_world (fun n => inject_Z (Z.of_nat n))
         (fun n => inject_Z (60000 * Z.of_nat n))
         (fun n _ _ => match n with
                       | O => Returned 321%Z
                       | _ => Raised (Exception "502_bad_gateway")
                       end)
         (fun _ _ _ => Hangs) ∅)
      = (Ret ({| cents := 321; is_degraded := false; reasons := [];
                 freshness := None |}, self1), w1) /\
    get_price self1 "SKU_TOMATO" us_west w1 = (Ret (r2, self2), w2) /\
    cents r2 = 321%Z /\ is_degraded r2 = true /\
    reasons r2 = [t1; t2; "used_cache"] /\
    freshness r2 <> None.
Proof.
  apply (fetched_price_is_served_from_cache new_supplier_client "SKU_TOMATO"
           us_east us_west
           (make_world (fun n => inject_Z (Z.of_nat n))
              (fun n => inject_Z (60000 * Z.of_nat n))
              (fun n _ _ => match n with
                            | O => Returned 321%Z
                            | _ => Raised (Exception "502_bad_gateway")
                            end)
              (fun _ _ _ => Hangs) ∅) 321%Z).
  - discriminate.
  - reflexivity.
  - intros n region c' Hn. simpl in Hn. destruct n; [lia | discriminate].
Defined.

End SupplierChain.

Section SupplierShapes.

Implicit Types (self : SupplierClient) (sku : string) (region : Region)
  (rs : list string) (w : World).

Lemma attempt_any self sku rs region w :
  exists p self' rs' w',
    attempt self sku rs region w = (Ret (p, self', rs'), w') /\
    (supplier_calls w' = supplier_calls w \/
     supplier_calls w' = supplier_calls w ++ [(sku, region)]) /\
    match p with
    | Some r =>
        rs' = rs /\ reasons r = rs /\
        is_degraded r = (0 <? length rs)%nat /\ freshness r = None
    | None => exists tag, rs' = rs ++ [tag]
    end.
Proof.
  destruct (fst (open_and_cannot_probe (_breakers self region) w)) eqn:S.
  - destruct (attempt_skipped self sku rs region w S) as (w' & E & Q).
    destruct Q as (_ & _ & _ & _ & Qsc & _).
    exists None, self, (rs ++ ["supplier_open"]), w'.
    split; [exact E|]. split; [now left | eauto].
  - destruct (attempt_called self sku rs region w S)
      as (self' & w' & M & Csc & _).
    destruct (supplier_api w (length (supplier_calls w)) sku region) eqn:R.
    + eexists _, _, _, _. split; [exact M|]. split; [now right|].
      simpl. auto.
    + destruct M as (E & _). eexists _, _, _, _.
      split; [exact E|]. split; [now right | eauto].
    + destruct M as (E & _). eexists _, _, _, _.
      split; [exact E|]. split; [now right | eauto].
Qed.

(** X14.  Every result of [get_price] has one of four shapes: from the
    preferred region (not degraded, no reasons); from the mirror (degraded,
    one tag then [used_mirror]); from the cache (degraded, two tags then
    [used_cache], with a freshness label); or the baseline estimate
    (degraded, two tags then [used_baseline]).  So a result is degraded
    exactly when its reasons are not empty, and it carries a freshness label
    exactly when it comes from the cache.  The run makes at most two supplier
    calls, both for the requested SKU: the preferred region first, then the
    mirror, each at most once. *)
Theorem get_price_result_shapes self sku preferred w r self' w' :
  get_price self sku preferred w = (Ret (r, self'), w') ->
  ((is_degraded r = false /\ reasons r = [] /\ freshness r = None) \/
   (exists t1, is_degraded r = true /\ reasons r = [t1; "used_mirror"] /\
               freshness r = None) \/
   (exists t1 t2 label, is_degraded r = true /\
      reasons r = [t1; t2; "used_cache"] /\ freshness r = Some label) \/
   (exists t1 t2, is_degraded r = true /\
      reasons r = [t1; t2; "used_baseline"] /\ freshness r = None /\
      cents r = baseline_estimate_cents sku)) /\
  (is_degraded r = true <-> reasons r <> []) /\
  (exists calls,
     supplier_calls w' = supplier_calls w ++ calls /\
     calls `sublist_of` [(sku, preferred); (sku, mirror_of preferred)]).
Proof.
  intros E.
  assert (G :
    ((is_degraded r = false /\ reasons r = [] /\ freshness r = None) \/
     (exists t1, is_degraded r = true /\ reasons r = [t1; "used_mirror"] /\
                 freshness r = None) \/
     (exists t1 t2 label, is_degraded r = true /\
        reasons r = [t1; t2; "used_cache"] /\ freshness r = Some label) \/
     (exists t1 t2, is_degraded r = true /\
        reasons r = [t1; t2; "used_baseline"] /\ freshness r = None /\
        cents r = baseline_estimate_cents sku)) /\
    (exists calls,
       supplier_calls w' = supplier_calls w ++ calls /\
       calls `sublist_of` [(sku, preferred); (sku, mirror_of preferred)])).
  { revert E. unfold get_price, bind. fold (mirror_of preferred).
    destruct (attempt_any self sku [] preferred w)
      as (p1 & self1 & rs1 & w1 & E1 & S1 & P1). rewrite E1.
    destruct p1 as [r1|].
    - destruct P1 as (_ & Pr & Pd & Pf). intros [= <- <- <-].
      split; [left; now rewrite Pd, Pr, Pf|].
      destruct S1 as [-> | ->].
      + exists []. rewrite app_nil_r. split; [reflexivity | apply sublist_nil_l].
      + eexists. split; [reflexivity|]. apply sublist_skip, sublist_nil_l.
    - destruct P1 as (t1 & ->).
      destruct (attempt_any self1 sku ([] ++ [t1]) (mirror_of preferred) w1)
        as (p2 & self2 & rs2 & w2 & E2 & S2 & P2). rewrite E2.
      assert (Calls : exists calls,
                supplier_calls w2 = supplier_calls w ++ calls /\
                calls `sublist_of` [(sku, preferred); (sku, mirror_of preferred)]).
      { destruct S1 as [S1 | S1], S2 as [S2 | S2]; rewrite S2, S1.
        - exists []. rewrite app_nil_r. split; [reflexivity | apply sublist_nil_l].
        - eexists. split; [reflexivity|].
          apply sublist_cons, sublist_skip, sublist_nil_l.
        - eexists. split; [reflexivity|]. apply sublist_skip, sublist_nil_l.
        - eexists. rewrite <- app_assoc. split; [reflexivity|]. reflexivity. }
      destruct p2 as [r2|].
      + destruct P2 as (_ & Pr & _ & Pf). intros [= <- <- <-]. simpl.
        split; [|exact Calls].
        right. left. exists t1. now rewrite Pr, Pf.
      + destruct P2 as (t2 & ->).
        unfold lift, cache_get. cbn [fst snd].
        destruct (price_cache w2 !! sku) as [entry|].
        * assert (Sc : supplier_calls
                         (snd (freshness_label (entry_ts entry) w2))
                       = supplier_calls w2) by reflexivity.
          destruct (freshness_label (entry_ts entry) w2) as [label w3].
          simpl in Sc. simpl. intros [= <- <- <-]. simpl.
          split; [|now rewrite Sc].
          right. right. left. now exists t1, t2, label.
        * simpl. intros [= <- <- <-]. simpl.
          split; [|exact Calls].
          right. right. right. now exists t1, t2. }
  destruct G as (Shape & Calls). split; [exact Shape|]. split; [|exact Calls].
  destruct Shape as [(D & Rs & _) | [(t1 & D & Rs & _) |
                     [(t1 & t2 & l & D & Rs & _) | (t1 & t2 & D & Rs & _)]]];
    rewrite D, Rs; split; congruence.
Qed.

Lemma get_price_result_shapes_witness :
  exists r self' w',
    get_price new_supplier_client "SKU_STEAK" us_west (failing_world 1 ∅)
      = (Ret (r, self'), w') /\
    (is_degraded r = true <-> reasons r <> []) /\
    (exists calls,
       supplier_calls w' = supplier_calls (failing_world 1 ∅) ++ calls /\
       calls `sublist_of` [("SKU_STEAK", us_west); ("SKU_STEAK", mirror_of us_west)]).
Proof.
  destruct (get_price (new_supplier_client) "SKU_STEAK" us_west (failing_world 1 ∅))
    as [[[r self'] | e | ] w'] eqn:E; [|vm_compute in E; discriminate..].
  exists r, self', w'. split; [reflexivity|].
  destruct (get_price_result_shapes _ _ _ _ _ _ _ E) as (_ & D & C).
  split; [exact D | exact C].
Defined.

End SupplierShapes.

(** ** The allergen chain, primary answer and mock checker *)

Section AllergenPrimary.

(** X15.  When the allergen breaker is not open and the third party
    answers in time, [allergens_for] hands its list back as it came (not
    sorted, merged or lower-cased), not degraded and without reasons; the
    conservative completion is not asked, and one third-party call has been
    made. *)
Theorem allergen_primary_answer_is_passed_through (self : AllergenClient)
    (recipe : Recipe) (w : World) (its : list string) :
  _state (_breaker self) <> open ->
  allergen_api w (length (allergen_calls w)) (id recipe) (ingredients recipe)
    = Returned its ->
  exists self' w',
    allergens_for self recipe w
      = (Ret ({| AllergenResult.items := its;
                 AllergenResult.is_degraded := false;
                 AllergenResult.reasons := [] |}, self'), w') /\
    llm_calls w' = llm_calls w /\
    allergen_calls w' = allergen_calls w ++ [id recipe].
Proof.
  intros Hn R. unfold allergens_for, allergen_primary, bind, lift.
  pose proof (not_open_never_skipped (_breaker self) w Hn) as S.
  pose proof (open_and_cannot_probe_quiet (_breaker self) w) as Q0.
  destruct (open_and_cannot_probe (_breaker self) w) as [skip w0].
  simpl in S, Q0. subst skip.
  pose proof (probe_if_due_quiet (_breaker self) w0) as Q1.
  destruct (probe_if_due (_breaker self) w0) as [brk w1]. simpl in Q1.
  pose proof (quiet_trans _ _ _ Q0 Q1) as Q.
  destruct Q as (_ & _ & _ & _ & _ & Qa & Qac & Ql & _).
  unfold try_except, with_timeout, fetch_allergens. simpl.
  rewrite Qa, Qac, R. simpl.
  match goal with
  | |- context [success ?b ?d ?x] =>
      pose proof (success_quiet b d x) as Qx;
      destruct (success b d x) as [brk1 w2]
  end.
  simpl in Qx. destruct Qx as (_ & _ & _ & _ & _ & _ & Qac2 & Ql2 & _).
  eexists _, _. split; [reflexivity|]. simpl.
  split; [now rewrite Ql2 | now rewrite Qac2].
Qed.

Lemma allergen_primary_answer_is_passed_through_witness :
  exists self' w',
    allergens_for new_allergen_client
      {| id := "RCP"; name := "Toast"; ingredients := ["bread"; "butter"];
         allergen_tags := ["dairy"] |}
      (make_world (fun n => inject_Z (Z.of_nat n)) (fun n => inject_Z 5)
         (fun _ _ _ => Hangs) (fun _ _ _ => Returned ["Gluten"; "dairy"; "dairy"]) ∅)
      = (Ret ({| AllergenResult.items := ["Gluten"; "dairy"; "dairy"];
                 AllergenResult.is_degraded := false;
                 AllergenResult.reasons := [] |}, self'), w') /\
    llm_calls w' = [] /\
    allergen_calls w' = [] ++ ["RCP"].
Proof.
  apply (allergen_primary_answer_is_passed_through new_allergen_client
           {| id := "RCP"; name := "Toast"; ingredients := ["bread"; "butter"];
              allergen_tags := ["dairy"] |}
           (make_world (fun n => inject_Z (Z.of_nat n)) (fun n => inject_Z 5)
              (fun _ _ _ => Hangs)
              (fun _ _ _ => Returned ["Gluten"; "dairy"; "dairy"]) ∅)).
  - discriminate.
  - reflexivity.
Defined.

(** The mock checker reports a selection of the four allergen names, in
    the order dairy, gluten, nuts, soy. *)
Lemma detect_allergens_sublist (ingr : list string) :
  detect_allergens ingr `sublist_of` ["dairy"; "gluten"; "nuts"; "soy"].
Proof.
  unfold detect_allergens.
  repeat match goal with
         | |- context [search_any ?ws ?t] => destruct (search_any ws t)
         end; simpl;
    repeat first [ apply sublist_nil_l | apply sublist_skip | apply sublist_cons ].
Qed.

(** X16.  The degraded answer is at least as inclusive as the checker:
    every allergen the mock checker reports for any list of ingredients (a
    selection of dairy, gluten, nuts, soy, in that order) is among the items
    [allergens_for] returns whenever its primary step is unavailable, for any
    recipe. *)
Theorem degraded_answer_covers_the_checker (self : AllergenClient)
    (recipe : Recipe) (w : World) (ingr : list string) :
  fst (open_and_cannot_probe (_breaker self) w) = true \/
  (forall its, allergen_api w (length (allergen_calls w)) (id recipe)
                 (ingredients recipe) <> Returned its) ->
  detect_allergens ingr `sublist_of` ["dairy"; "gluten"; "nuts"; "soy"] /\
  exists r self' w',
    allergens_for self recipe w = (Ret (r, self'), w') /\
    forall x, x ∈ detect_allergens ingr -> x ∈ AllergenResult.items r.
Proof.
  intros H. split; [apply detect_allergens_sublist|].
  unfold allergens_for, bind.
  destruct (allergen_primary_unavailable self recipe w H)
    as (self1 & tag & w1 & E & _ & _).
  rewrite E. unfold llm_complete, ret. simpl.
  eexists _, _, _. split; [reflexivity|]. simpl.
  intros x Hx.
  apply sorted_set_spec, elem_of_app. right. rewrite llm_items_value.
  pose proof (detect_allergens_sublist ingr) as S.
  apply (sublist_subseteq _ _ S) in Hx.
  repeat (apply elem_of_cons in Hx as [-> | Hx];
          [repeat first [apply list_elem_of_here | apply list_elem_of_further]|]).
  now apply elem_of_nil in Hx.
Qed.

Lemma degraded_answer_covers_the_checker_witness :
  exists r self' w',
    allergens_for new_allergen_client
      {| id := "RCP"; name := "Toast"; ingredients := ["bread"; "butter"];
         allergen_tags := [] |} (failing_world 1 ∅) = (Ret (r, self'), w') /\
    forall x, x ∈ detect_allergens ["bread"; "peanut butter"] ->
              x ∈ AllergenResult.items r.
Proof.
  apply (degraded_answer_covers_the_checker new_allergen_client
           {| id := "RCP"; name := "Toast"; ingredients := ["bread"; "butter"];
              allergen_tags := [] |} (failing_world 1 ∅)
           ["bread"; "peanut butter"]).
  right. intros its. discriminate.
Defined.

End AllergenPrimary.

(** ** The mock supplier *)

Section SupplierMock.

Lemma ord_sum_nonneg (s : string) : (0 <= ord_sum s)%Z.
Proof. induction s; simpl; lia. Qed.

(** X17.  The mock supplier, once its sleep is over: the price it
    returns depends on the SKU only and lies between 100 and 499 cents; it
    raises nothing but [429_throttle] and [502_bad_gateway]; and for one and
    the same draw, whenever us-east fails us-west fails too, while a draw of
    0.35 or more succeeds in both regions. *)
Theorem supplier_mock_outcomes (r : Q) (sku : string) :
  (forall region c,
     supplier_mock_outcome r sku region = Ret c ->
     c = (100 + ord_sum sku mod 400)%Z /\ (100 <= c <= 499)%Z) /\
  (forall region,
     supplier_mock_outcome r sku region <> Late /\
     forall e, supplier_mock_outcome r sku region = Raise e ->
               e = Exception "429_throttle" \/ e = Exception "502_bad_gateway") /\
  (forall e, supplier_mock_outcome r sku us_east = Raise e ->
             exists e', supplier_mock_outcome r sku us_west = Raise e') /\
  ((35 # 100 <= r)%Q ->
   forall region,
     supplier_mock_outcome r sku region = Ret (100 + ord_sum sku mod 400)%Z).
Proof.
  pose proof (Z.mod_pos_bound (ord_sum sku) 400 ltac:(lia)) as B.
  assert (Q1 : forall a b : Q, (a <= b)%Q -> Qle_bool b r = true -> Qle_bool a r = true).
  { intros a b Hab H. apply Qle_bool_iff. apply Qle_bool_iff in H.
    eapply Qle_trans; eassumption. }
  repeat split.
  - revert H. unfold supplier_mock_outcome.
    destruct region; repeat (destruct (negb _)); congruence.
  - revert H. unfold supplier_mock_outcome.
    destruct region; repeat (destruct (negb _)); intros [= <-]; lia.
  - revert H. unfold supplier_mock_outcome.
    destruct region; repeat (destruct (negb _)); intros [= <-]; lia.
  - unfold supplier_mock_outcome.
    destruct region; repeat (destruct (negb _)); discriminate.
  - unfold supplier_mock_outcome.
    destruct region; repeat (destruct (negb _)); intros e [= <-]; auto.
  - intros e. unfold supplier_mock_outcome.
    destruct (Qle_bool (5 # 100) r) eqn:A; simpl.
    + destruct (Qle_bool ((5 # 100) + (3 # 100)) r) eqn:B'; simpl; [discriminate|].
      intros _. destruct (Qle_bool (25 # 100) r) eqn:C; simpl; [|eauto].
      rewrite (Q1 ((5 # 100) + (3 # 100))%Q (25 # 100)%Q) in B';
        [discriminate | discriminate | exact C].
    + intros _. destruct (Qle_bool (25 # 100) r) eqn:C; simpl; [|eauto].
      rewrite (Q1 (5 # 100)%Q (25 # 100)%Q) in A;
        [discriminate | discriminate | exact C].
  - intros H region. apply Qle_bool_iff in H. unfold supplier_mock_outcome.
    destruct region; simpl.
    + rewrite (Q1 (5 # 100)%Q (35 # 100)%Q), (Q1 ((5 # 100) + (3 # 100))%Q (35 # 100)%Q);
        trivial; discriminate.
    + rewrite (Q1 (25 # 100)%Q (35 # 100)%Q), (Q1 ((25 # 100) + (10 # 100))%Q (35 # 100)%Q);
        trivial; discriminate.
Qed.

Lemma supplier_mock_outcomes_witness :
  supplier_mock_outcome (1 # 2) "SKU_PASTA" us_west
    = Ret (100 + ord_sum "SKU_PASTA" mod 400)%Z.
Proof.
  destruct (supplier_mock_outcomes (1 # 2) "SKU_PASTA") as (_ & _ & _ & H).
  apply H. discriminate.
Defined.

End SupplierMock.

(** ** Breakers and chains together *)

Section Blackout.

Implicit Types (self : SupplierClient) (sku : string) (region : Region)
  (rs : list string) (w : World).

Lemma probe_if_due_not_open (brk : CircuitBreaker) w :
  _state brk <> open -> probe_if_due brk w = (brk, w).
Proof.
  intros H. unfold probe_if_due. now rewrite can_probe_not_open.
Qed.

Lemma open_and_cannot_probe_not_open (brk : CircuitBreaker) w :
  _state brk <> open -> open_and_cannot_probe brk w = (false, w).
Proof.
  intros H. apply state_eqb_neq in H. unfold open_and_cannot_probe, state.
  now rewrite H.
Qed.

(** A skipped attempt has read the monotonic clock once. *)
Lemma attempt_skipped_ticks self sku rs region w :
  _state (_breakers self region) = open ->
  (next_mono w - _last_opened_at_ms (_breakers self region)
   < _cooldown_ms (_breakers self region))%Q ->
  exists w',
    attempt self sku rs region w = (Ret (None, self, rs ++ ["supplier_open"]), w') /\
    quiet w w' /\ ticks_mono w' = S (ticks_mono w).
Proof.
  intros Ho Hc. unfold attempt, bind, lift, open_and_cannot_probe, state,
    can_probe.
  rewrite Ho. simpl.
  fold (next_mono w).
  destruct (Qle_bool _ _) eqn:L.
  - apply Qle_bool_iff in L. now apply Qlt_not_le in Hc.
  - simpl. eexists. split; [reflexivity|]. split; [|reflexivity].
    now repeat split.
Qed.

(** A failed call through a breaker that is not open and has an empty
    window opens that breaker. *)
Lemma attempt_failed_opens self sku rs region w :
  _state (_breakers self region) <> open ->
  _outcomes (_breakers self region) = [] ->
  (1 <= _sample_size (_breakers self region))%Z ->
  (_max_fail_rate (_breakers self region) <= 1)%Q ->
  (forall c, supplier_api w (length (supplier_calls w)) sku region <> Returned c) ->
  exists self' w',
    attempt self sku rs region w
      = (Ret (None, self', rs ++ ["supplier_error_" +:+ region_str region]), w') /\
    _state (_breakers self' region) = open /\
    (forall r, r <> region -> _breakers self' r = _breakers self r) /\
    supplier_calls w' = supplier_calls w ++ [(sku, region)] /\
    supplier_api w' = supplier_api w /\
    price_cache w' = price_cache w.
Proof.
  intros Hn He Hcap Hr Hfail. unfold attempt, bind, lift.
  rewrite open_and_cannot_probe_not_open by assumption.
  rewrite probe_if_due_not_open by assumption.
  unfold try_except, with_timeout, _try_region, bind, lift,
    fetch_supplier_price. simpl.
  assert (Hst : forall b, _breakers (store_breaker self region b) region = b).
  { intros b. simpl. now destruct region. }
  assert (Hother : forall b r, r <> region ->
            _breakers (store_breaker self region b) r = _breakers self r).
  { intros b r Hne. simpl. destruct r, region; simpl; congruence. }
  destruct (supplier_api w (length (supplier_calls w)) sku region)
    as [c | e | ]; [now destruct (Hfail c) | destruct e |]; simpl;
    match goal with
    | |- context [failure ?b ?d ?x] =>
        pose proof (failure_quiet b d x) as Qx;
        destruct (first_failure_opens_core b d x He Hn Hcap Hr) as (Hs & _);
        destruct (failure b d x) as [brk1 w2]
    end;
    simpl in Qx, Hs; destruct Qx as (_ & _ & _ & Qs2 & Qsc2 & _ & _ & _ & Qc2);
    (eexists _, _; split; [reflexivity|];
     split; [now rewrite Hst|];
     split; [apply Hother|]; simpl;
     split; [now rewrite Qsc2|];
     split; [now rewrite Qs2 | now rewrite Qc2]).
Qed.

(** X18.  One failed lookup opens both region breakers.  For a client
    whose two breakers are not open and have empty windows (a new client),
    when neither region returns a price, [get_price] has called the preferred
    region and then the mirror, once each, and leaves both breakers open. *)
Theorem failed_lookup_opens_both_breakers self sku preferred w :
  (forall region,
     _state (_breakers self region) <> open /\
     _outcomes (_breakers self region) = [] /\
     (1 <= _sample_size (_breakers self region))%Z /\
     (_max_fail_rate (_breakers self region) <= 1)%Q) ->
  (forall n region c,
     length (supplier_calls w) <= n -> supplier_api w n sku region <> Returned c) ->
  exists r self' w',
    get_price self sku preferred w = (Ret (r, self'), w') /\
    supplier_calls w'
      = supplier_calls w ++ [(sku, preferred); (sku, mirror_of preferred)] /\
    (forall region, _state (_breakers self' region) = open) /\
    firstn 2 (reasons r)
      = ["supplier_error_" +:+ region_str preferred;
         "supplier_error_" +:+ region_str (mirror_of preferred)].
Proof.
  intros Hfresh Hfail. unfold get_price, bind. fold (mirror_of preferred).
  destruct (Hfresh preferred) as (Hn1 & He1 & Hc1 & Hr1).
  destruct (attempt_failed_opens self sku [] preferred w Hn1 He1 Hc1 Hr1)
    as (self1 & w1 & E1 & O1 & B1 & S1 & A1 & C1).
  { intros c. now apply Hfail. }
  rewrite E1.
  assert (Hm : mirror_of preferred <> preferred)
    by (unfold mirror_of; now destruct preferred).
  destruct (Hfresh (mirror_of preferred)) as (Hn2 & He2 & Hc2 & Hr2).
  rewrite <- (B1 _ Hm) in Hn2, He2, Hc2, Hr2.
  destruct (attempt_failed_opens self1 sku
              ([] ++ ["supplier_error_" +:+ region_str preferred])
              (mirror_of preferred) w1 Hn2 He2 Hc2 Hr2)
    as (self2 & w2 & E2 & O2 & B2 & S2 & A2 & C2).
  { intros c. rewrite A1. apply Hfail. rewrite S1, length_app. lia. }
  rewrite E2.
  assert (Hopen : forall region, _state (_breakers self2 region) = open).
  { intros region.
    assert (Hcase : region = mirror_of preferred \/ region = preferred)
      by (unfold mirror_of; destruct region, preferred; simpl; auto).
    destruct Hcase as [-> | ->]; [exact O2|].
    rewrite (B2 preferred) by (intros E; now apply Hm). exact O1. }
  unfold lift, cache_get. cbn [fst snd].
  destruct (price_cache w2 !! sku) as [entry|].
  - assert (Sc : supplier_calls (snd (freshness_label (entry_ts entry) w2))
                 = supplier_calls w2) by reflexivity.
    destruct (freshness_label (entry_ts entry) w2) as [label w3].
    simpl in Sc. simpl.
    eexists _, _, _. split; [reflexivity|]. simpl.
    split; [now rewrite Sc, S2, S1, <- app_assoc|]. split; [exact Hopen | reflexivity].
  - simpl. eexists _, _, _. split; [reflexivity|]. simpl.
    split; [now rewrite S2, S1, <- app_assoc|]. split; [exact Hopen | reflexivity].
Qed.

Lemma failed_lookup_opens_both_breakers_witness :
  exists r self' w',
    get_price new_supplier_client "SKU_FISH" us_east (failing_world 1 ∅)
      = (Ret (r, self'), w') /\
    supplier_calls w'
      = supplier_calls (failing_world 1 ∅)
        ++ [("SKU_FISH", us_east); ("SKU_FISH", mirror_of us_east)] /\
    (forall region, _state (_breakers self' region) = open) /\
    firstn 2 (reasons r)
      = ["supplier_error_" +:+ region_str us_east;
         "supplier_error_" +:+ region_str (mirror_of us_east)].
Proof.
  apply (failed_lookup_opens_both_breakers new_supplier_client "SKU_FISH"
           us_east (failing_world 1 ∅)).
  - intros region. destruct region; repeat split; discriminate.
  - intros n region c _. discriminate.
Defined.

(** X19.  While both region breakers are open with their cooldowns
    running, [get_price] calls no supplier at all and leaves the client as it
    is: both regions are tagged [supplier_open] and the answer comes from the
    cache when it has an entry for the SKU, from the baseline estimate
    otherwise. *)
Theorem open_breakers_black_out_the_suppliers self sku preferred w :
  _state (_breakers self preferred) = open ->
  (clock_mono w (ticks_mono w) - _last_opened_at_ms (_breakers self preferred)
   < _cooldown_ms (_breakers self preferred))%Q ->
  _state (_breakers self (mirror_of preferred)) = open ->
  (clock_mono w (S (ticks_mono w))
   - _last_opened_at_ms (_breakers self (mirror_of preferred))
   < _cooldown_ms (_breakers self (mirror_of preferred)))%Q ->
  exists r w',
    get_price self sku preferred w = (Ret (r, self), w') /\
    supplier_calls w' = supplier_calls w /\
    is_degraded r = true /\
    match price_cache w !! sku with
    | Some entry =>
        cents r = entry_cents entry /\
        reasons r = ["supplier_open"; "supplier_open"; "used_cache"]
    | None =>
        cents r = baseline_estimate_cents sku /\
        reasons r = ["supplier_open"; "supplier_open"; "used_baseline"]
    end.
Proof.
  intros Ho1 Hc1 Ho2 Hc2. unfold get_price, bind. fold (mirror_of preferred).
  destruct (attempt_skipped_ticks self sku [] preferred w Ho1 Hc1)
    as (w1 & E1 & Q1 & T1).
  rewrite E1.
  destruct Q1 as (Qm & _ & _ & _ & Qsc & _ & _ & _ & Qc).
  destruct (attempt_skipped_ticks self sku ([] ++ ["supplier_open"])
              (mirror_of preferred) w1 Ho2)
    as (w2 & E2 & Q2 & _).
  { unfold next_mono. now rewrite Qm, T1. }
  rewrite E2.
  destruct Q2 as (_ & _ & _ & _ & Qsc2 & _ & _ & _ & Qc2).
  unfold lift, cache_get. cbn [fst snd]. rewrite Qc2, Qc.
  destruct (price_cache w !! sku) as [entry|].
  - assert (Sc : supplier_calls (snd (freshness_label (entry_ts entry) w2))
                 = supplier_calls w2) by reflexivity.
    destruct (freshness_label (entry_ts entry) w2) as [label w3].
    simpl in Sc. simpl.
    eexists _, _. split; [reflexivity|]. simpl.
    split; [now rewrite Sc, Qsc2, Qsc|]. now repeat split.
  - simpl. eexists _, _. split; [reflexivity|]. simpl.
    split; [now rewrite Qsc2, Qsc|]. now repeat split.
Qed.

End Blackout.

Lemma open_breakers_black_out_the_suppliers_witness :
  exists r w',
    get_price (fst after_failed_lookup) "SKU_STEAK" us_west
      (snd after_failed_lookup) = (Ret (r, fst after_failed_lookup), w') /\
    supplier_calls w' = supplier_calls (snd after_failed_lookup) /\
    is_degraded r = true /\
    cents r = baseline_estimate_cents "SKU_STEAK" /\
    reasons r = ["supplier_open"; "supplier_open"; "used_baseline"].
Proof.
  destruct (open_breakers_black_out_the_suppliers (fst after_failed_lookup)
              "SKU_STEAK" us_west (snd after_failed_lookup))
    as (r & w' & E & S & D & M).
  - reflexivity.
  - reflexivity.
  - reflexivity.
  - reflexivity.
  - exists r, w'. split; [exact E|]. split; [exact S|]. split; [exact D|].
    exact M.
Defined.

Section AllergenBreaker.

Implicit Types (self : AllergenClient) (recipe : Recipe) (w : World).

(** X20.  A failed allergen lookup through a breaker that is not open
    and has an empty window (a new client): the checker has been called
    once, the breaker is left open, and the failure is tagged
    [allergen_timeout] when the deadline fired or the error message contains
    "timeout" in any letter case, and [allergen_invalid_json] for every
    other error, whatever its cause; the fallback tags follow. *)
Theorem failed_allergen_lookup_opens_and_tags self recipe w :
  _state (_breaker self) <> open ->
  _outcomes (_breaker self) = [] ->
  (1 <= _sample_size (_breaker self))%Z ->
  (_max_fail_rate (_breaker self) <= 1)%Q ->
  (forall its, allergen_api w (length (allergen_calls w)) (id recipe)
                 (ingredients recipe) <> Returned its) ->
  exists r self' w',
    allergens_for self recipe w = (Ret (r, self'), w') /\
    _state (_breaker self') = open /\
    allergen_calls w' = allergen_calls w ++ [id recipe] /\
    AllergenResult.reasons r
      = [allergen_failure_tag
           (allergen_api w (length (allergen_calls w)) (id recipe)
              (ingredients recipe));
         "allergen_fallback_local_tags"; "allergen_fallback_llm"].
Proof.
  intros Hn He Hcap Hr Hfail.
  unfold allergens_for, allergen_primary, bind, lift.
  rewrite open_and_cannot_probe_not_open by assumption.
  rewrite probe_if_due_not_open by assumption.
  unfold try_except, with_timeout, fetch_allergens. simpl.
  destruct (allergen_api w (length (allergen_calls w)) (id recipe)
              (ingredients recipe)) as [its | e | ];
    [now destruct (Hfail its) | destruct e |]; simpl;
    match goal with
    | |- context [failure ?b ?d ?x] =>
        pose proof (failure_quiet b d x) as Qx;
        destruct (first_failure_opens_core b d x He Hn Hcap Hr) as (Hs & _);
        destruct (failure b d x) as [brk1 w2]
    end;
    simpl in Qx, Hs;
    destruct Qx as (_ & _ & _ & _ & _ & _ & Qac2 & _);
    try (destruct (contains "timeout" (lower msg)));
    (eexists _, _, _; split; [reflexivity|]; simpl;
     split; [exact Hs|]; split; [now rewrite Qac2 | reflexivity]).
Qed.

Lemma failed_allergen_lookup_opens_and_tags_witness :
  exists r self' w',
    allergens_for new_allergen_client
      {| id := "RCP"; name := "Toast"; ingredients := ["bread"; "butter"];
         allergen_tags := ["dairy"] |}
      (make_world (fun n => inject_Z (Z.of_nat n)) (fun n => inject_Z 5)
         (fun _ _ _ => Hangs)
         (fun _ _ _ => Raised (Exception "connection refused")) ∅)
      = (Ret (r, self'), w') /\
    _state (_breaker self') = open /\
    allergen_calls w' = [] ++ ["RCP"] /\
    AllergenResult.reasons r
      = ["allergen_invalid_json";
         "allergen_fallback_local_tags"; "allergen_fallback_llm"].
Proof.
  apply (failed_allergen_lookup_opens_and_tags new_allergen_client
           {| id := "RCP"; name := "Toast"; ingredients := ["bread"; "butter"];
              allergen_tags := ["dairy"] |}
           (make_world (fun n => inject_Z (Z.of_nat n)) (fun n => inject_Z 5)
              (fun _ _ _ => Hangs)
              (fun _ _ _ => Raised (Exception "connection refused")) ∅)).
  - discriminate.
  - reflexivity.
  - vm_compute. discriminate.
  - vm_compute. discriminate.
  - intros its. discriminate.
Defined.

(** X21.  While the allergen breaker is open with its cooldown running,
    [allergens_for] does not call the checker and leaves the client as it
    is; it asks the conservative completion once, and the result is degraded
    with reasons [allergen_open] followed by the two fallback tags. *)
Theorem open_allergen_breaker_skips_the_checker self recipe w :
  _state (_breaker self) = open ->
  (next_mono w - _last_opened_at_ms (_breaker self)
   < _cooldown_ms (_breaker self))%Q ->
  exists r w',
    allergens_for self recipe w = (Ret (r, self), w') /\
    allergen_calls w' = allergen_calls w /\
    llm_calls w' = llm_calls w ++ [allergen_prompt recipe] /\
    AllergenResult.is_degraded r = true /\
    AllergenResult.reasons r
      = ["allergen_open"; "allergen_fallback_local_tags";
         "allergen_fallback_llm"].
Proof.
  intros Ho Hc.
  unfold allergens_for, allergen_primary, bind, lift, open_and_cannot_probe,
    state, can_probe.
  rewrite Ho. simpl. fold (next_mono w).
  destruct (Qle_bool _ _) eqn:L.
  - apply Qle_bool_iff in L. now apply Qlt_not_le in Hc.
  - simpl. eexists _, _. split; [reflexivity|]. simpl. now repeat split.
Qed.

Lemma open_allergen_breaker_skips_the_checker_witness :
  exists r w',
    allergens_for
      {| _breaker := fst (failure (_breaker new_allergen_client) 800%Q
                            (failing_world 1 ∅)) |}
      {| id := "RCP"; name := "Toast"; ingredients := ["bread"; "butter"];
         allergen_tags := ["dairy"] |}
      (failing_world 1 ∅)
      = (Ret (r, {| _breaker := fst (failure (_breaker new_allergen_client) 800%Q
                                       (failing_world 1 ∅)) |}), w') /\
    allergen_calls w' = allergen_calls (failing_world 1 ∅) /\
    llm_calls w'
      = llm_calls (failing_world 1 ∅)
        ++ [allergen_prompt
              {| id := "RCP"; name := "Toast"; ingredients := ["bread"; "butter"];
                 allergen_tags := ["dairy"] |}] /\
    AllergenResult.is_degraded r = true /\
    AllergenResult.reasons r
      = ["allergen_open"; "allergen_fallback_local_tags";
         "allergen_fallback_llm"].
Proof.
  apply (open_allergen_breaker_skips_the_checker
           {| _breaker := fst (failure (_breaker new_allergen_client) 800%Q
                                 (failing_world 1 ∅)) |}
           {| id := "RCP"; name := "Toast"; ingredients := ["bread"; "butter"];
              allergen_tags := ["dairy"] |}
           (failing_world 1 ∅)).
  - reflexivity.
  - reflexivity.
Defined.

End AllergenBreaker.

(** ** Healthy traffic *)

Section Healthy.

Implicit Types (b : CircuitBreaker) (w : World).

Lemma healthy_window_does_not_trip b :
  (0 < _max_fail_rate b)%Q -> (0 < _max_p95_ms b)%Q ->
  (forall x, x ∈ _outcomes b -> snd x = true /\ (fst x < _max_p95_ms b)%Q) ->
  trips b = false.
Proof.
  intros Hr Hp Hall. unfold trips. apply orb_false_iff. split.
  - destruct (Qle_bool _ _) eqn:E; [|reflexivity]. exfalso.
    apply Qle_bool_iff in E.
    rewrite fail_rate_no_fails in E
      by (apply count_fails_all_ok; intros x Hx; now apply Hall).
    now apply Qlt_not_le in Hr.
  - destruct (_outcomes b) as [|x t] eqn:Eo.
    + destruct (Qle_bool _ _) eqn:E; [|reflexivity]. exfalso.
      apply Qle_bool_iff in E. now apply Qlt_not_le in Hp.
    + apply p95_below; [discriminate|]. intros y Hy. now apply Hall.
Qed.

(** X22.  Healthy traffic never opens the breaker.  A closed breaker
    with positive thresholds whose window holds only successes faster than
    the latency threshold stays closed, with its opening time untouched,
    under any sequence of further successes faster than that threshold. *)
Theorem healthy_traffic_keeps_closed b l w :
  _state b = closed ->
  (0 < _max_fail_rate b)%Q -> (0 < _max_p95_ms b)%Q ->
  (forall x, x ∈ _outcomes b ++ l ->
             snd x = true /\ (fst x < _max_p95_ms b)%Q) ->
  _state (fst (feed b l w)) = closed /\
  _last_opened_at_ms (fst (feed b l w)) = _last_opened_at_ms b.
Proof.
  revert b w. induction l as [|s l IH]; intros b w Hc Hr Hp Hall; [now split|].
  rewrite feed_cons.
  pose proof (report_closed b s w Hc) as R. cbv zeta in R.
  destruct (push_outcome_config b (fst s) (snd s)) as (_ & Er & _ & Ep & _).
  assert (Hwin : forall x, x ∈ _outcomes (_push_outcome b (fst s) (snd s)) ->
                           snd x = true /\ (fst x < _max_p95_ms b)%Q).
  { intros x Hx. apply push_outcome_elems in Hx as [Hx | ->].
    - apply Hall, elem_of_app. now left.
    - apply Hall, elem_of_app. right. destruct s. apply list_elem_of_here. }
  assert (T : trips (_push_outcome b (fst s) (snd s)) = false).
  { apply healthy_window_does_not_trip; rewrite ?Er, ?Ep; trivial. }
  rewrite T in R. rewrite R.
  destruct (IH (_push_outcome b (fst s) (snd s)) (snd (report b s w))) as [Hs Ht].
  - now rewrite push_outcome_state.
  - now rewrite Er.
  - now rewrite Ep.
  - rewrite Ep. intros x Hx. apply elem_of_app in Hx as [Hx | Hx].
    + now apply Hwin.
    + apply Hall, elem_of_app. right. now apply list_elem_of_further.
  - split; [exact Hs|]. now rewrite Ht, push_outcome_last_opened.
Qed.

Lemma healthy_traffic_keeps_closed_witness :
  _state (fst (feed (new_breaker 3 (4 # 10) 15000 1200 "b")
                    (repeat (850%Q, true) 5) (failing_world 1 ∅))) = closed /\
  _last_opened_at_ms
    (fst (feed (new_breaker 3 (4 # 10) 15000 1200 "b")
               (repeat (850%Q, true) 5) (failing_world 1 ∅)))
  = _last_opened_at_ms (new_breaker 3 (4 # 10) 15000 1200 "b").
Proof.
  apply (healthy_traffic_keeps_closed (new_breaker 3 (4 # 10) 15000 1200 "b")
           (repeat (850%Q, true) 5) (failing_world 1 ∅)).
  - reflexivity.
  - reflexivity.
  - reflexivity.
  - intros x Hx. simpl in Hx.
    repeat (apply elem_of_cons in Hx as [-> | Hx]; [split; reflexivity|]).
    now apply elem_of_nil in Hx.
Defined.

End Healthy.

(** ** The merged items as a canonical list *)

Section Canonical.

Lemma ascii_compare_lt_trans (x y z : ascii) :
  Ascii.compare x y = Lt -> Ascii.compare y z = Lt -> Ascii.compare x z = Lt.
Proof.
  unfold Ascii.compare. rewrite !N.compare_lt_iff. apply N.lt_trans.
Qed.

Lemma ascii_compare_eq (x y : ascii) : Ascii.compare x y = Eq -> x = y.
Proof. apply Ascii.compare_eq_iff. Qed.

Lemma str_le_trans (a b c : string) : str_le a b -> str_le b c -> str_le a c.
Proof.
  unfold str_le, String.leb. revert b c.
  induction a as [|x a IH]; intros b c Hab Hbc.
  - now destruct c.
  - destruct b as [|y b]; [discriminate|].
    destruct c as [|z c]; [discriminate|].
    simpl in *.
    destruct (Ascii.compare x y) eqn:P; try discriminate;
      destruct (Ascii.compare y z) eqn:Q; try discriminate.
    + apply ascii_compare_eq in P, Q. subst.
      assert (Ascii.compare z z = Eq) as ->
        by (unfold Ascii.compare; apply N.compare_refl).
      now apply (IH b c).
    + apply ascii_compare_eq in P. subst. now rewrite Q.
    + apply ascii_compare_eq in Q. subst. now rewrite P.
    + now rewrite (ascii_compare_lt_trans x y z P Q).
Qed.

Instance str_le_transitive : Transitive str_le.
Proof. intros a b c. apply str_le_trans. Qed.

(** Two ascending lists without duplicates that have the same elements
    are the same list. *)
Lemma ascending_nodup_unique (l1 : list string) : forall l2,
  StronglySorted str_le l1 -> NoDup l1 ->
  StronglySorted str_le l2 -> NoDup l2 ->
  (forall x, x ∈ l1 <-> x ∈ l2) -> l1 = l2.
Proof.
  induction l1 as [|x t1 IH]; intros l2 S1 N1 S2 N2 Hm.
  - destruct l2 as [|y t2]; [reflexivity|].
    exfalso. apply (not_elem_of_nil y), Hm, list_elem_of_here.
  - destruct l2 as [|y t2].
    { exfalso. apply (not_elem_of_nil x), Hm, list_elem_of_here. }
    apply StronglySorted_inv in S1 as [S1 F1].
    apply StronglySorted_inv in S2 as [S2 F2].
    apply NoDup_cons in N1 as [X1 N1]. apply NoDup_cons in N2 as [Y2 N2].
    rewrite Forall_forall in F1, F2.
    assert (x = y) as ->.
    { assert (Hx : x ∈ y :: t2) by (apply Hm, list_elem_of_here).
      assert (Hy : y ∈ x :: t1) by (apply Hm, list_elem_of_here).
      apply elem_of_cons in Hx as [-> | Hx]; [reflexivity|].
      apply elem_of_cons in Hy as [-> | Hy]; [reflexivity|].
      apply String.leb_antisym; [now apply F1 | now apply F2]. }
    f_equal. apply IH; trivial.
    intros z. split; intros Hz.
    + assert (H : z ∈ y :: t2) by (apply Hm; now apply list_elem_of_further).
      apply elem_of_cons in H as [-> | H]; [contradiction | exact H].
    + assert (H : z ∈ y :: t1) by (apply Hm; now apply list_elem_of_further).
      apply elem_of_cons in H as [-> | H]; [contradiction | exact H].
Qed.

Lemma sorted_set_canonical (l1 l2 : list string) :
  (forall x, x ∈ l1 <-> x ∈ l2) -> sorted_set l1 = sorted_set l2.
Proof.
  intros H.
  destruct (sorted_set_spec l1) as (S1 & N1 & M1).
  destruct (sorted_set_spec l2) as (S2 & N2 & M2).
  apply ascending_nodup_unique; trivial.
  - now apply Sorted_StronglySorted; [apply str_le_transitive|].
  - now apply Sorted_StronglySorted; [apply str_le_transitive|].
  - intros x. now rewrite M1, M2.
Qed.

(** X23.  The degraded allergen items depend only on which local tags
    there are, up to letter case: two recipes whose lower-cased tags are the
    same set - in any order, with any repetitions - get the same list of
    items whenever the primary step is unavailable, whatever the clients,
    the ingredients and the worlds. *)
Theorem degraded_items_ignore_tag_order_and_case
    (self1 self2 : AllergenClient) (recipe1 recipe2 : Recipe) (w1 w2 : World) :
  (fst (open_and_cannot_probe (_breaker self1) w1) = true \/
   forall its, allergen_api w1 (length (allergen_calls w1)) (id recipe1)
                 (ingredients recipe1) <> Returned its) ->
  (fst (open_and_cannot_probe (_breaker self2) w2) = true \/
   forall its, allergen_api w2 (length (allergen_calls w2)) (id recipe2)
                 (ingredients recipe2) <> Returned its) ->
  (forall x, x ∈ map lower (allergen_tags recipe1) <->
             x ∈ map lower (allergen_tags recipe2)) ->
  exists r1 s1 v1 r2 s2 v2,
    allergens_for self1 recipe1 w1 = (Ret (r1, s1), v1) /\
    allergens_for self2 recipe2 w2 = (Ret (r2, s2), v2) /\
    AllergenResult.items r1 = AllergenResult.items r2.
Proof.
  intros H1 H2 Htags. unfold allergens_for, bind.
  destruct (allergen_primary_unavailable self1 recipe1 w1 H1)
    as (s1 & tag1 & v1 & E1 & _ & _).
  destruct (allergen_primary_unavailable self2 recipe2 w2 H2)
    as (s2 & tag2 & v2 & E2 & _ & _).
  rewrite E1, E2. unfold llm_complete, ret. simpl.
  eexists _, _, _, _, _, _. split; [reflexivity|]. split; [reflexivity|].
  simpl. apply sorted_set_canonical. intros x.
  rewrite !elem_of_app.
  destruct (sorted_set_spec (map lower (allergen_tags recipe1))) as (_ & _ & M1).
  destruct (sorted_set_spec (map lower (allergen_tags recipe2))) as (_ & _ & M2).
  now rewrite M1, M2, Htags.
Qed.

Lemma degraded_items_ignore_tag_order_and_case_witness :
  exists r1 s1 v1 r2 s2 v2,
    allergens_for new_allergen_client
      {| id := "A"; name := "A"; ingredients := ["egg"];
         allergen_tags := ["Sesame"; "dairy"; "SESAME"] |}
      (failing_world 1 ∅) = (Ret (r1, s1), v1) /\
    allergens_for new_allergen_client
      {| id := "B"; name := "B"; ingredients := ["rice"];
         allergen_tags := ["Dairy"; "sesame"] |}
      (failing_world 7 ∅) = (Ret (r2, s2), v2) /\
    AllergenResult.items r1 = AllergenResult.items r2.
Proof.
  apply (degraded_items_ignore_tag_order_and_case
           new_allergen_client new_allergen_client
           {| id := "A"; name := "A"; ingredients := ["egg"];
              allergen_tags := ["Sesame"; "dairy"; "SESAME"] |}
           {| id := "B"; name := "B"; ingredients := ["rice"];
              allergen_tags := ["Dairy"; "sesame"] |}
           (failing_world 1 ∅) (failing_world 7 ∅)).
  - right. intros its. discriminate.
  - right. intros its. discriminate.
  - intros x. simpl. rewrite !elem_of_cons. tauto.
Defined.

End Canonical.
